(** * Elbow-point selection of [n_estimators]

    A shallow embedding of the "Finding the Elbow" cell of the notebook
    [Modeling Weather Geographies on Hadoop using Scikit-Learn]:

<<
    slope = (val_mad[-1]-val_mad[0])/(n_est[-1]-n_est[0])
    intercept = val_mad[0] - slope*n_est[0]
    best_n = (np.array(n_est)*slope+intercept-np.array(val_mad)).argmax()
    print("The best value of n is {}.".format(n_est[best_n]))
>>

    [n_est] is a Python list of integers and [val_mad] a Python list filled
    by [val_mad.append(mean_absolute_error(y_val,val_pred))], that is, with
    numpy [float64] scalars.  All arithmetic is IEEE 754 binary64, which is
    what Rocq's primitive [float] implements: operations on [float64]
    scalars and arrays never raise, they return infinities and NaN.  What
    can raise is the conversion of a Python integer that is too large for
    a float, and [np.array(n_est)] is an array of numbers only as long as
    the integers fit in 64 bits.

    The development has three parts: the cell itself, as a program over
    the interpreter's namespace; the theory of the binary64 order and of
    correct rounding that the claims about the elbow need; the claims. *)

From Stdlib Require Import ZArith List Bool Lia Floats String DecimalString.
Import ListNotations.

(** ** Python values and exceptions *)

Inductive exn : Set :=
| IndexError   (* list index out of range *)
| NameError    (* name is not defined *)
| ValueError   (* operands could not be broadcast together, or
                  attempt to get argmax of an empty sequence *)
| OverflowError. (* int too large to convert to float *)

Inductive result (A : Type) : Type :=
| Ok (a : A)
| Raise (e : exn).
Arguments Ok {A} a.
Arguments Raise {A} e.

Definition rbind {A B} (r : result A) (k : A -> result B) : result B :=
  match r with
  | Ok a => k a
  | Raise e => Raise e
  end.

Definition raises {A} (r : result A) : Prop := exists e, r = Raise e.

(** Python integers are unbounded ([Z]).  [float_of_int z] is the binary64
    number nearest to [z], ties to even, an infinity when [z] is out of
    range: the value of a 64-bit array element cast to [float64], and the
    value of a Python integer that converts. *)
Definition float_of_int (z : Z) : float :=
  SF2Prim (binary_normalize prec emax z 0 false).

(** The conversion of a Python integer where it meets a float scalar, as
    in [x / n] and [x * n]: correctly rounded, and an [OverflowError] when
    the rounded value is beyond the largest float. *)
Definition PyLong_AsDouble (z : Z) : result float :=
  let x := float_of_int z in
  if is_finite x then Ok x else Raise OverflowError.

(** [l[i]] on a Python list: negative indices count from the end. *)
Definition getitem {A} (l : list A) (i : Z) : result A :=
  let n := Z.of_nat (List.length l) in
  let j := if (i <? 0)%Z then (n + i)%Z else i in
  if ((0 <=? j) && (j <? n))%Z
  then match nth_error l (Z.to_nat j) with
       | Some x => Ok x
       | None => Raise IndexError
       end
  else Raise IndexError.

(** ** The numpy operations the cell uses, on one-dimensional arrays *)

Module np.

Local Open Scope float_scope.

(** The dtype of [np.array(a)] for a list of Python integers: [int64]
    when all of them fit, [uint64] or [float64] when they fit in 64 bits
    but not all as signed ones, and [object] otherwise.  The first three
    are arrays of numbers, the last one holds the Python integers
    themselves. *)
Definition fits_64_bits (p : Z) : bool :=
  ((- 2 ^ 63 <=? p) && (p <? 2 ^ 64))%Z.

Definition is_numeric (a : list Z) : bool := forallb fits_64_bits a.

(** [np.array(n_est) * slope]: a numeric integer array times a float64
    scalar. *)
Definition mul_scalar (a : list Z) (s : float) : list float :=
  map (fun p => float_of_int p * s) a.

(** The same product on an object array: each Python integer is
    multiplied by the scalar on its own, in order, and the first one that
    does not convert raises. *)
Fixpoint mul_scalar_object (a : list Z) (s : float) : result (list float) :=
  match a with
  | [] => Ok []
  | p :: a' =>
      rbind (PyLong_AsDouble p) (fun x =>
      rbind (mul_scalar_object a' s) (fun r => Ok (x * s :: r)))
  end.

(** [a + c] for a float64 array and a float64 scalar. *)
Definition add_scalar (a : list float) (c : float) : list float :=
  map (fun x => x + c) a.

Fixpoint zip_sub (a b : list float) : list float :=
  match a, b with
  | x :: a', y :: b' => (x - y) :: zip_sub a' b'
  | _, _ => []
  end.

(** [a - b] for two float64 arrays, with numpy's broadcasting of a
    length-one operand; other length mismatches are a [ValueError]. *)
Definition sub (a b : list float) : result (list float) :=
  if Nat.eqb (List.length a) (List.length b) then Ok (zip_sub a b)
  else match a, b with
       | _, [y] => Ok (map (fun x => x - y) a)
       | [x], _ => Ok (map (fun y => x - y) b)
       | _, _ => Raise ValueError
       end.

(** The scan of [argmax] on a float64 array: [mp] is the running
    maximum, [max_ind] its index, [i] the index of the head of [ip].
    An element replaces the maximum when [not (x <= mp)]; a NaN is
    maximal and ends the scan. *)
Fixpoint argmax_loop (mp : float) (max_ind i : nat) (ip : list float) : nat :=
  match ip with
  | [] => max_ind
  | x :: ip' =>
      if negb (x <=? mp)
      then if is_nan x then i else argmax_loop x i (S i) ip'
      else argmax_loop mp max_ind (S i) ip'
  end.

Definition argmax (a : list float) : result nat :=
  match a with
  | [] => Raise ValueError
  | mp :: ip => Ok (if is_nan mp then O else argmax_loop mp 0 1 ip)
  end.

(** The scan of [argmax] on an object array: an element replaces the
    maximum when it compares greater, [x > mp]; a NaN is nothing
    special. *)
Fixpoint argmax_object_loop (mp : float) (max_ind i : nat) (ip : list float)
  : nat :=
  match ip with
  | [] => max_ind
  | x :: ip' =>
      if mp <? x then argmax_object_loop x i (S i) ip'
      else argmax_object_loop mp max_ind (S i) ip'
  end.

Definition argmax_object (a : list float) : result nat :=
  match a with
  | [] => Raise ValueError
  | mp :: ip => Ok (argmax_object_loop mp 0 1 ip)
  end.

End np.

(** ** The expressions of the cell *)

Section Expressions.

Local Open Scope float_scope.

Variable n_est : list Z.
Variable val_mad : list float.

(** [(val_mad[-1]-val_mad[0])/(n_est[-1]-n_est[0])].  The divisor is an
    integer difference, converted for the division; dividing a float64
    scalar by zero yields an infinity or NaN, not an exception. *)
Definition slope_expr : result float :=
  rbind (getitem val_mad (-1)) (fun e_last =>
  rbind (getitem val_mad 0) (fun e_first =>
  rbind (getitem n_est (-1)) (fun p_last =>
  rbind (getitem n_est 0) (fun p_first =>
  rbind (PyLong_AsDouble (p_last - p_first)) (fun range =>
  Ok ((e_last - e_first) / range)))))).

(** [val_mad[0] - slope*n_est[0]] *)
Definition intercept_expr (slope : float) : result float :=
  rbind (getitem val_mad 0) (fun e_first =>
  rbind (getitem n_est 0) (fun p_first =>
  rbind (PyLong_AsDouble p_first) (fun p =>
  Ok (e_first - slope * p)))).

(** [np.array(n_est)*slope+intercept] on a numeric array *)
Definition line_expr (slope intercept : float) : list float :=
  np.add_scalar (np.mul_scalar n_est slope) intercept.

(** [np.array(n_est)*slope+intercept-np.array(val_mad)] on a numeric
    array *)
Definition dist_expr (slope intercept : float) : result (list float) :=
  np.sub (line_expr slope intercept) val_mad.

(** The same two expressions on an object array. *)
Definition line_expr_object (slope intercept : float) : result (list float) :=
  rbind (np.mul_scalar_object n_est slope) (fun a =>
  Ok (np.add_scalar a intercept)).

Definition dist_expr_object (slope intercept : float)
  : result (list float) :=
  rbind (line_expr_object slope intercept) (fun l => np.sub l val_mad).

(** [(...).argmax()], on the array the dtype of [np.array(n_est)] leads
    to. *)
Definition best_n_expr (slope intercept : float) : result nat :=
  if np.is_numeric n_est
  then rbind (dist_expr slope intercept) np.argmax
  else rbind (dist_expr_object slope intercept) np.argmax_object.

(** [n_est[best_n]] *)
Definition chosen_expr (best_n : nat) : result Z :=
  getitem n_est (Z.of_nat best_n).

End Expressions.

(** ** The cell as a program over the interpreter's namespace *)

Record namespace : Type := mkNamespace {
  n_est : list Z;
  val_mad : list float;
  slope : option float;
  intercept : option float;
  best_n : option nat;
  stdout : list string
}.

(** Statements run in a state-and-exception monad: an exception leaves the
    namespace as it was when it was raised. *)
Definition py (A : Type) : Type := namespace -> namespace * result A.

Definition ret {A} (a : A) : py A := fun st => (st, Ok a).

Definition bind {A B} (m : py A) (k : A -> py B) : py B :=
  fun st =>
    match m st with
    | (st', Ok a) => k a st'
    | (st', Raise e) => (st', Raise e)
    end.

Notation "x <- m ;; k" := (bind m (fun x => k))
  (at level 61, m at next level, right associativity).
Notation "m ;;; k" := (bind m (fun _ => k))
  (at level 61, right associativity).

Definition eval {A} (f : namespace -> result A) : py A :=
  fun st => (st, f st).

Definition lookup {A} (f : namespace -> option A) : py A :=
  fun st => (st, match f st with Some a => Ok a | None => Raise NameError end).

Definition set_slope (v : float) : py unit :=
  fun st => (mkNamespace (n_est st) (val_mad st) (Some v) (intercept st)
                         (best_n st) (stdout st), Ok tt).

Definition set_intercept (v : float) : py unit :=
  fun st => (mkNamespace (n_est st) (val_mad st) (slope st) (Some v)
                         (best_n st) (stdout st), Ok tt).

Definition set_best_n (v : nat) : py unit :=
  fun st => (mkNamespace (n_est st) (val_mad st) (slope st) (intercept st)
                         (Some v) (stdout st), Ok tt).

Definition print (line : string) : py unit :=
  fun st => (mkNamespace (n_est st) (val_mad st) (slope st) (intercept st)
                         (best_n st) (stdout st ++ [line]), Ok tt).

Definition format_int (z : Z) : string :=
  NilZero.string_of_int (Z.to_int z).

(** The four statements of the cell.  The value of the cell is the
    parameter value it prints. *)
Definition elbow_cell : py Z :=
  s <- eval (fun st => slope_expr (n_est st) (val_mad st)) ;;
  set_slope s ;;;
  s <- lookup slope ;;
  c <- eval (fun st => intercept_expr (n_est st) (val_mad st) s) ;;
  set_intercept c ;;;
  s <- lookup slope ;;
  c <- lookup intercept ;;
  k <- eval (fun st => best_n_expr (n_est st) (val_mad st) s c) ;;
  set_best_n k ;;;
  k <- lookup best_n ;;
  v <- eval (fun st => chosen_expr (n_est st) k) ;;
  print ("The best value of n is " ++ format_int v ++ ".")%string ;;;
  ret v.

(** A namespace in which only the two sweep lists are bound. *)
Definition fresh (ns : list Z) (es : list float) : namespace :=
  mkNamespace ns es None None None [].

(** The elbow-point selector: the value the cell selects for a sweep. *)
Definition selector (ns : list Z) (es : list float) : result Z :=
  snd (elbow_cell (fresh ns es)).

(** ** The elbow line as the specification words it *)

Section Chord.

Local Open Scope float_scope.

Variable ns : list Z.
Variable es : list float.

(** [slope = (e_n - e_1) / (p_n - p_1)] *)
Definition chord_slope : float :=
  (last es 0 - hd 0 es) / float_of_int (last ns 0%Z - hd 0%Z ns).

(** [intercept = e_1 - slope * p_1] *)
Definition chord_intercept : float :=
  hd 0 es - chord_slope * float_of_int (hd 0%Z ns).

(** [slope * p + intercept], the value of the line at [p]. *)
Definition line_at (p : Z) : float :=
  chord_slope * float_of_int p + chord_intercept.

(** [(slope * p + intercept) - e], the distance of the point [(p, e)]
    below the line. *)
Definition below_line (p : Z) (e : float) : float := line_at p - e.

(** The line values and the distances of all the points of the sweep. *)
Definition line_values : list float := map line_at ns.

Definition distances : list float :=
  map (fun pe => below_line (fst pe) (snd pe)) (combine ns es).

End Chord.

(** Well-formed sweeps. *)
Fixpoint strictly_increasing (ns : list Z) : bool :=
  match ns with
  | p :: ((q :: _) as ns') => (p <? q)%Z && strictly_increasing ns'
  | _ => true
  end.

Definition all_finite (es : list float) : bool := forallb is_finite es.

(** A valid sweep: at least two strictly increasing parameter values with a
    non-zero range, and as many finite errors. *)
Definition valid_sweep (ns : list Z) (es : list float) : bool :=
  strictly_increasing ns
  && (2 <=? List.length ns)%nat
  && negb (last ns 0 =? hd 0 ns)%Z
  && (List.length es =? List.length ns)%nat
  && all_finite es.

(** The cell's value without the namespace. *)
Definition select (ns : list Z) (es : list float) : result Z :=
  rbind (slope_expr ns es) (fun s =>
  rbind (intercept_expr ns es s) (fun c =>
  rbind (best_n_expr ns es s c) (fun k =>
  chosen_expr ns k))).

(** ** The first maximum of an array *)

(** Index [k], holding [dk], is the first maximum of [d]: no earlier
    element reaches [dk], and [dk] is a NaN or bounds every element. *)
Record first_max (d : list float) (k : nat) (dk : float) : Prop := {
  fm_at : nth_error d k = Some dk;
  fm_before : forall j dj, (j < k)%nat -> nth_error d j = Some dj ->
                is_nan dj = false /\ (dk <=? dj)%float = false;
  fm_all : is_nan dk = true \/
           forall j dj, nth_error d j = Some dj -> (dj <=? dk)%float = true
}.
Arguments fm_at {d k dk}.
Arguments fm_before {d k dk}.
Arguments fm_all {d k dk}.

(** The NaN of the specification-level floats. *)
Definition SFnan (x : spec_float) : bool :=
  match x with S754_nan => true | _ => false end.

(** ** Rounding to nearest, ties to even, in closed form

    [binary_round_aux] of the specification shifts a mantissa bit by bit
    while tracking a round and a sticky bit.  The definitions below state
    the same computation with a division; they are what the monotonicity
    of the binary64 operations is proved from. *)

Section RoundingDefs.

Local Open Scope Z_scope.

(** [m / 2^k] rounded to the nearest integer, ties to even. *)
Definition rne (m k : Z) : Z :=
  let q := m / 2 ^ k in
  let r := m mod 2 ^ k in
  if 2 * r <? 2 ^ k then q
  else if 2 ^ k <? 2 * r then q + 1
  else if Z.even q then q else q + 1.

(** The float with sign [sx], mantissa [q] and exponent [E]; it overflows
    to an infinity above the largest exponent, [emax - prec = 971]. *)
Definition pack (sx : bool) (q E : Z) : spec_float :=
  match q with
  | Z0 => S754_zero sx
  | Zpos p => if E <=? 971 then S754_finite sx p E else S754_infinity sx
  | Zneg _ => S754_nan
  end.

(** [m * 2^e] rounded to binary64: the mantissa is cut at the exponent
    [fexp] gives for its magnitude, and a carry into the 54th bit moves
    the result to the next binade. *)
Definition rnd (sx : bool) (m e : Z) : spec_float :=
  let E := fexp prec emax (Zdigits2 m + e) in
  let q1 := rne m (E - e) in
  if q1 =? 2 ^ 53 then pack sx (2 ^ 52) (E + 1) else pack sx q1 E.

(** The signed integer [N], in units of [2^e0], rounded to binary64. *)
Definition rnd_int (e0 N : Z) : spec_float :=
  match N with
  | Z0 => S754_zero false
  | Zpos p => rnd false (Zpos p) e0
  | Zneg p => rnd true (Zpos p) e0
  end.

(** Finite numbers and their values in units of [2^-1074]. *)
Definition sf_fin (x : spec_float) : bool :=
  match x with
  | S754_zero _ | S754_finite _ _ _ => true
  | _ => false
  end.

Definition val (x : spec_float) : Z :=
  match x with
  | S754_finite s m e => cond_Zopp s (Zpos m * 2 ^ (e + 1074))
  | _ => 0
  end.

(** The order does not see the sign of a zero. *)
Definition unsign (x : spec_float) : spec_float :=
  match x with
  | S754_zero _ => S754_zero false
  | _ => x
  end.

End RoundingDefs.

(** Finite primitive floats and their values in units of [2^-1074]. *)
Definition ffin (x : float) : bool := sf_fin (Prim2SF x).

Definition fval (x : float) : Z := val (Prim2SF x).

(** ** Additions without rounding

    A sum or difference is exact when it is finite and its value is the
    sum or difference of the values of the operands.  [exact_shift] says
    so of every [e + c]; [exact_line] of the two additions that build the
    line of a sweep: the one of the intercept,
    [e_1 - slope * p_1], and the one of each line value,
    [slope * p + intercept]. *)
Definition exact_add (x y : float) : bool :=
  ffin (x + y) && (fval (x + y) =? fval x + fval y)%Z.

Definition exact_sub (x y : float) : bool :=
  ffin (x - y) && (fval (x - y) =? fval x - fval y)%Z.

Definition exact_shift (es : list float) (c : float) : bool :=
  forallb (fun e => exact_add e c) es.

Definition exact_line (ns : list Z) (es : list float) : bool :=
  exact_sub (hd 0%float es)
            (chord_slope ns es * float_of_int (hd 0%Z ns))
  && forallb (fun p => exact_add (chord_slope ns es * float_of_int p)
                                 (chord_intercept ns es)) ns.

(** Two floats that are the same number: equal, or zeros of either
    sign. *)
Definition same_number (x y : float) : Prop :=
  unsign (Prim2SF x) = unsign (Prim2SF y).

(** ** The sweep cell and the cells that use the selection

<<
    n_est = list(range(1,201))
    val_mad = list()
    for n in tqdm(n_est):
        val_model = GradientBoostingRegressor(n_estimators=n)
        val_model.fit(x_train,y_train)
        val_pred = val_model.predict(x_val)
        val_mad.append(mean_absolute_error(y_val,val_pred))
>>

    The body of the loop calls scikit-learn; what it computes for [n]
    estimators is a parameter, [score n], which may raise.  Each [n]
    occurs once in the loop, so a function of [n] loses nothing. *)

Fixpoint range_from (a : Z) (len : nat) : list Z :=
  match len with
  | O => []
  | S len' => a :: range_from (a + 1) len'
  end.

(** [list(range(a, b))] *)
Definition py_range (a b : Z) : list Z := range_from a (Z.to_nat (b - a)).

Definition set_n_est (v : list Z) : py unit :=
  fun st => (mkNamespace v (val_mad st) (slope st) (intercept st)
                         (best_n st) (stdout st), Ok tt).

Definition set_val_mad (v : list float) : py unit :=
  fun st => (mkNamespace (n_est st) v (slope st) (intercept st)
                         (best_n st) (stdout st), Ok tt).

(** [val_mad.append(x)]: the list bound to [val_mad] grows in place. *)
Definition val_mad_append (x : float) : py unit :=
  fun st => (mkNamespace (n_est st) (val_mad st ++ [x]) (slope st)
                         (intercept st) (best_n st) (stdout st), Ok tt).

(** [for x in l: body] *)
Fixpoint for_in {A} (l : list A) (body : A -> py unit) : py unit :=
  match l with
  | [] => ret tt
  | x :: l' => body x ;;; for_in l' body
  end.

Section Sweep.

Variable score : Z -> result float.

Definition sweep_body (n : Z) : py unit :=
  e <- eval (fun _ => score n) ;;
  val_mad_append e.

Definition sweep_cell : py unit :=
  set_n_est (py_range 1 201) ;;;
  set_val_mad [] ;;;
  ns <- eval (fun st => Ok (n_est st)) ;;
  for_in ns sweep_body.

End Sweep.

(** [n_est[best_n]], the argument of
    [GradientBoostingRegressor(n_estimators=n_est[best_n])] in the two
    cells that refit the model. *)
Definition n_estimators_arg : py Z :=
  k <- lookup best_n ;;
  eval (fun st => chosen_expr (n_est st) k).

(** ** The Keras notebook: labels and feature columns

<<
    def determine_z(row):
        value = float(np.sin(row['X']) + np.sin(row['Y']))
        if value < -1.0:
            return 0
        if (value >= -1.0) & (value < 0.0):
            return 1
        if (value >= 0.0) & (value < 1.0):
            return 2
        if value >= 1.0:
            return 3
>>

    A row of the frame has the two float columns [X] and [Y]; [np.sin] is
    numpy's and is a parameter.  A Python function that reaches its end
    returns [None]. *)

Module DistKeras.

Record row : Set := mkRow { X : float; Y : float }.

Section DetermineZ.

Local Open Scope float_scope.

Variable np_sin : float -> float.

(** [float(np.sin(row['X']) + np.sin(row['Y']))] *)
Definition value_of (r : row) : float := np_sin (X r) + np_sin (Y r).

Definition determine_z (r : row) : option Z :=
  let value := value_of r in
  if value <? -1 then Some 0%Z
  else if (-1 <=? value) && (value <? 0) then Some 1%Z
  else if (0 <=? value) && (value <? 1) then Some 2%Z
  else if 1 <=? value then Some 3%Z
  else None.

End DetermineZ.

(** The four bands of values, each with its label. *)
Definition in_band (z : Z) (v : float) : Prop :=
  (z = 0%Z /\ (v <? -1)%float = true) \/
  (z = 1%Z /\ (-1 <=? v)%float = true /\ (v <? 0)%float = true) \/
  (z = 2%Z /\ (0 <=? v)%float = true /\ (v <? 1)%float = true) \/
  (z = 3%Z /\ (1 <=? v)%float = true).

(** <<
    features = raw_dataset.columns
    features.remove('EventId')
    features.remove('Weight')
    features.remove('Label')
    ...
    nb_features = len(features)
>>

    [list.remove(x)] deletes the first element equal to [x] from the list
    and raises [ValueError] when there is none.  The state of the three
    statements is the list bound to [features]. *)

Fixpoint list_remove (x : string) (l : list string) : result (list string) :=
  match l with
  | [] => Raise ValueError
  | y :: l' =>
      if String.eqb y x then Ok l'
      else match list_remove x l' with
           | Ok r => Ok (y :: r)
           | Raise e => Raise e
           end
  end.

Definition remove_stmt (x : string) (features : list string)
  : list string * result unit :=
  match list_remove x features with
  | Ok l => (l, Ok tt)
  | Raise e => (features, Raise e)
  end.

Definition then_stmt (r : list string * result unit)
  (k : list string -> list string * result unit) : list string * result unit :=
  match r with
  | (features, Ok _) => k features
  | (features, Raise e) => (features, Raise e)
  end.

Definition select_features (columns : list string)
  : list string * result unit :=
  then_stmt (then_stmt (remove_stmt "EventId" columns)
                       (remove_stmt "Weight"))
            (remove_stmt "Label").

(** [len(features)] *)
Definition nb_features (features : list string) : Z :=
  Z.of_nat (List.length features).

End DistKeras.

(** ** The cars notebook: where the data is uploaded and where it is read

    In the remote session:
<<
    hdfs_dataset_dir = "/user/{}/datasets".format(getpass.getuser())
    input_ds = "{}/{}".format(hdfs_dataset_dir, "cars.csv")
>>
    and locally:
<<
    hdfs_dataset_dir = "/user/user1/datasets"
    dsx_core_utils.upload_hdfs_file(webhdfs_endpoint, input_csv,
                                    "{}/cars.csv".format(hdfs_dataset_dir))
>>
    [str.format] puts its arguments in place of the [{}] fields as they
    are. *)

Module Cars.

Section Paths.

Local Open Scope string_scope.

(** The name [getpass.getuser()] returns in the remote session. *)
Variable user : string.

Definition remote_hdfs_dataset_dir : string := "/user/" ++ user ++ "/datasets".

Definition input_ds : string := remote_hdfs_dataset_dir ++ "/" ++ "cars.csv".

Definition local_hdfs_dataset_dir : string := "/user/user1/datasets".

Definition upload_target : string := local_hdfs_dataset_dir ++ "/cars.csv".

End Paths.

End Cars.

(** ** Facts about the binary64 order

    Comparisons of primitive floats are specified through [Prim2SF] and
    [SFcompare]; the facts below are what the scan of [argmax] relies on. *)

Module FloatOrder.

Local Open Scope float_scope.


Ltac cmp_cases :=
  repeat match goal with
  | |- context [Z.compare ?a ?b] => destruct (Z.compare_spec a b)
  | H : context [Z.compare ?a ?b] |- _ => destruct (Z.compare_spec a b)
  | |- context [Pos.compare ?a ?b] => destruct (Pos.compare_spec a b)
  | H : context [Pos.compare ?a ?b] |- _ => destruct (Pos.compare_spec a b)
  end.

Ltac sf_order :=
  intros; unfold SFleb, SFltb, SFeqb, SFcompare, SFnan in *;
  repeat match goal with
  | x : spec_float |- _ => destruct x as [[]|[]| |[] ? ?]
  end;
  try rewrite !Pos.compare_cont_spec in *; simpl in *;
  try discriminate; try reflexivity;
  cmp_cases; simpl in *; subst; try discriminate; try reflexivity; try lia.

Lemma SFleb_refl x : SFnan x = false -> SFleb x x = true.
Proof. sf_order. Qed.

Lemma SFeqb_refl x : SFnan x = false -> SFeqb x x = true.
Proof. sf_order. Qed.

Lemma SFleb_trans x y z :
  SFleb x y = true -> SFleb y z = true -> SFleb x z = true.
Proof. sf_order. Qed.

Lemma SFleb_total x y :
  SFnan x = false -> SFnan y = false -> SFleb x y = false -> SFleb y x = true.
Proof. sf_order. Qed.


Lemma SFleb_not_ltb x y : SFleb x y = true -> SFltb y x = false.
Proof. sf_order. Qed.

Lemma SFleb_nan x y : SFleb x y = true -> SFnan x = false /\ SFnan y = false.
Proof. sf_order; auto. Qed.

Lemma SFltb_nan x y : SFltb x y = true -> SFnan x = false /\ SFnan y = false.
Proof. sf_order; auto. Qed.

Lemma SFeqb_leb x y : SFeqb x y = true -> SFleb x y = true /\ SFleb y x = true.
Proof. sf_order; auto. Qed.


Lemma is_nan_spec x : is_nan x = SFnan (Prim2SF x).
Proof.
  unfold is_nan. rewrite FloatAxioms.eqb_spec.
  destruct (SFnan (Prim2SF x)) eqn:E.
  - destruct (Prim2SF x); try discriminate. reflexivity.
  - now rewrite SFeqb_refl.
Qed.

Lemma leb_refl x : is_nan x = false -> (x <=? x) = true.
Proof. rewrite is_nan_spec, FloatAxioms.leb_spec. apply SFleb_refl. Qed.

Lemma leb_trans x y z : (x <=? y) = true -> (y <=? z) = true -> (x <=? z) = true.
Proof. rewrite !FloatAxioms.leb_spec. apply SFleb_trans. Qed.

Lemma leb_total x y :
  is_nan x = false -> is_nan y = false -> (x <=? y) = false -> (y <=? x) = true.
Proof. rewrite !is_nan_spec, !FloatAxioms.leb_spec. apply SFleb_total. Qed.

Lemma leb_not_nan x y : (x <=? y) = true -> is_nan x = false /\ is_nan y = false.
Proof. rewrite !is_nan_spec, FloatAxioms.leb_spec. apply SFleb_nan. Qed.

Lemma ltb_not_nan x y : (x <? y) = true -> is_nan x = false /\ is_nan y = false.
Proof. rewrite !is_nan_spec, FloatAxioms.ltb_spec. apply SFltb_nan. Qed.

Lemma leb_nan_l x y : is_nan x = true -> (x <=? y) = false.
Proof.
  intros H. destruct (x <=? y) eqn:E; [|reflexivity].
  apply leb_not_nan in E. destruct E; congruence.
Qed.

Lemma leb_nan_r x y : is_nan y = true -> (x <=? y) = false.
Proof.
  intros H. destruct (x <=? y) eqn:E; [|reflexivity].
  apply leb_not_nan in E. destruct E; congruence.
Qed.

Lemma ltb_nan_l x y : is_nan x = true -> (x <? y) = false.
Proof.
  intros H. destruct (x <? y) eqn:E; [|reflexivity].
  apply ltb_not_nan in E. destruct E; congruence.
Qed.

Lemma leb_not_ltb x y : (x <=? y) = true -> (y <? x) = false.
Proof. rewrite FloatAxioms.leb_spec, FloatAxioms.ltb_spec. apply SFleb_not_ltb. Qed.


Lemma eqb_leb x y : (x =? y) = true -> (x <=? y) = true /\ (y <=? x) = true.
Proof. rewrite FloatAxioms.eqb_spec, !FloatAxioms.leb_spec. apply SFeqb_leb. Qed.


Lemma is_nan_leb x : is_nan x = negb (x <=? x).
Proof.
  destruct (is_nan x) eqn:E.
  - now rewrite leb_nan_l.
  - now rewrite leb_refl.
Qed.

End FloatOrder.

(** ** Correct rounding and its monotonicity *)

Module Rounding.

Local Open Scope Z_scope.

Lemma fexp_eq D : fexp prec emax D = Z.max (D - 53) (-1074).
Proof. reflexivity. Qed.

Lemma digits2_bounds m :
  2 ^ (Zpos (digits2_pos m) - 1) <= Zpos m < 2 ^ Zpos (digits2_pos m).
Proof.
  induction m as [m IH|m IH|]; simpl digits2_pos.
  - rewrite Pos2Z.inj_succ.
    replace (Z.succ (Zpos (digits2_pos m)) - 1)
      with (Z.succ (Zpos (digits2_pos m) - 1)) by lia.
    rewrite !Z.pow_succ_r by lia. lia.
  - rewrite Pos2Z.inj_succ.
    replace (Z.succ (Zpos (digits2_pos m)) - 1)
      with (Z.succ (Zpos (digits2_pos m) - 1)) by lia.
    rewrite !Z.pow_succ_r by lia. lia.
  - simpl. lia.
Qed.

Lemma iter_pos_nat {A} (f : A -> A) p x :
  iter_pos f p x = Nat.iter (Pos.to_nat p) f x.
Proof.
  revert x. induction p as [p IH|p IH|]; intros x; simpl iter_pos.
  - rewrite !IH, <- Nat.iter_add, <- Nat.iter_succ_r. f_equal. lia.
  - rewrite !IH, <- Nat.iter_add. f_equal. lia.
  - reflexivity.
Qed.

Lemma shr_1_spec m r s :
  0 <= m -> shr_1 (Build_shr_record m r s) = Build_shr_record (m / 2) (Z.odd m) (r || s).
Proof.
  intros Hm. rewrite <- Z.div2_div.
  destruct m as [|[p|p|]|p]; try reflexivity; lia.
Qed.

Lemma shr_iter_inv m (j : nat) :
  0 <= m ->
  let mrs := Nat.iter (S j) shr_1 (Build_shr_record m false false) in
  exists low,
    0 <= shr_m mrs /\
    m = shr_m mrs * 2 ^ (Z.of_nat j + 1) + Z.b2z (shr_r mrs) * 2 ^ Z.of_nat j + low /\
    0 <= low < 2 ^ Z.of_nat j /\
    (shr_s mrs = true <-> 0 < low).
Proof.
  intros Hm. induction j as [|j IH].
  - cbv zeta. cbv [Nat.iter nat_rect]. rewrite shr_1_spec by assumption.
    exists 0. simpl.
    pose proof (Z.div2_odd m) as H. rewrite Z.div2_div in H.
    assert (0 <= m / 2) by (apply Z.div_pos; lia).
    repeat split; try lia.
  - destruct IH as (low & Hq & Heq & Hlow & Hs).
    set (mrs := Nat.iter (S j) shr_1 (Build_shr_record m false false)) in *.
    cbv zeta.
    replace (Nat.iter (S (S j)) shr_1 (Build_shr_record m false false))
      with (shr_1 mrs) by reflexivity.
    destruct mrs as [q r s]. simpl in Hq, Heq, Hs.
    rewrite shr_1_spec by assumption. cbn [shr_m shr_r shr_s].
    rewrite Nat2Z.inj_succ. unfold Z.succ.
    pose proof (Z.div2_odd q) as H. rewrite Z.div2_div in H.
    assert (0 <= q / 2) by (apply Z.div_pos; lia).
    exists (Z.b2z r * 2 ^ Z.of_nat j + low).
    assert (Hp : 2 ^ (Z.of_nat j + 1) = 2 * 2 ^ Z.of_nat j)
      by (rewrite Z.pow_add_r by lia; lia).
    assert (Hp2 : 2 ^ (Z.of_nat j + 1 + 1) = 2 * 2 ^ (Z.of_nat j + 1))
      by (rewrite (Z.pow_add_r 2 (Z.of_nat j + 1) 1) by lia; lia).
    assert (0 < 2 ^ Z.of_nat j) by (apply Z.pow_pos_nonneg; lia).
    split; [assumption|]. split; [|split].
    + rewrite Hp2, Hp. rewrite Hp in Heq.
      set (P := 2 ^ Z.of_nat j) in *. set (q2 := q / 2) in *.
      destruct (Z.odd q); cbn [Z.b2z] in *; lia.
    + rewrite Hp. destruct r; cbn [Z.b2z]; lia.
    + destruct r, s; cbn [orb Z.b2z];
        rewrite ?Z.mul_1_l, ?Z.mul_0_l, ?Z.add_0_l;
        intuition (try lia; try congruence).
Qed.

Lemma shr_rne m e k :
  0 <= m -> 0 <= k ->
  exists mrs,
    shr (Build_shr_record m false false) e k = (mrs, e + k) /\
    shr_m mrs = m / 2 ^ k /\
    round_nearest_even (shr_m mrs) (loc_of_shr_record mrs) = rne m k.
Proof.
  intros Hm Hk. destruct k as [|p|p]; [| |lia].
  - exists (Build_shr_record m false false). simpl shr.
    rewrite Z.add_0_r. unfold rne. simpl. rewrite Z.div_1_r, Z.mod_1_r.
    simpl. auto.
  - simpl shr. rewrite iter_pos_nat.
    destruct (Pos2Nat.is_succ p) as [j Hj]. rewrite Hj.
    destruct (shr_iter_inv m j Hm) as (low & Hq & Heq & Hlow & Hs).
    set (mrs := Nat.iter (S j) shr_1 (Build_shr_record m false false)) in *.
    exists mrs. split; [reflexivity|].
    assert (Hpj : Zpos p = Z.of_nat j + 1) by lia.
    rewrite Hpj.
    assert (Hp : 2 ^ (Z.of_nat j + 1) = 2 * 2 ^ Z.of_nat j)
      by (rewrite Z.pow_add_r by lia; lia).
    assert (HP : 0 < 2 ^ Z.of_nat j) by (apply Z.pow_pos_nonneg; lia).
    set (rem := Z.b2z (shr_r mrs) * 2 ^ Z.of_nat j + low) in *.
    assert (Hrem : 0 <= rem < 2 ^ (Z.of_nat j + 1)).
    { unfold rem. rewrite Hp. destruct (shr_r mrs); cbn [Z.b2z]; lia. }
    assert (Hdiv : m / 2 ^ (Z.of_nat j + 1) = shr_m mrs).
    { symmetry. apply (Z.div_unique m _ (shr_m mrs) rem); [lia|]. lia. }
    assert (Hmod : m mod 2 ^ (Z.of_nat j + 1) = rem).
    { symmetry. apply (Z.mod_unique m _ (shr_m mrs) rem); [lia|]. lia. }
    split; [now rewrite Hdiv|].
    unfold rne. rewrite Hdiv, Hmod. unfold rem. rewrite Hp.
    destruct mrs as [q r s]. cbn [shr_m shr_r shr_s] in *.
    destruct r, s; cbn [loc_of_shr_record round_nearest_even Z.b2z].
    + assert (0 < low) by (apply Hs; reflexivity).
      replace (2 * (1 * 2 ^ Z.of_nat j + low) <? 2 * 2 ^ Z.of_nat j) with false
        by (symmetry; apply Z.ltb_ge; lia).
      replace (2 * 2 ^ Z.of_nat j <? 2 * (1 * 2 ^ Z.of_nat j + low)) with true
        by (symmetry; apply Z.ltb_lt; lia).
      reflexivity.
    + assert (low = 0).
      { destruct (Z.eq_dec low 0); [assumption|].
        assert (false = true) by (apply Hs; lia). discriminate. }
      subst low.
      replace (2 * (1 * 2 ^ Z.of_nat j + 0) <? 2 * 2 ^ Z.of_nat j) with false
        by (symmetry; apply Z.ltb_ge; lia).
      replace (2 * 2 ^ Z.of_nat j <? 2 * (1 * 2 ^ Z.of_nat j + 0)) with false
        by (symmetry; apply Z.ltb_ge; lia).
      reflexivity.
    + replace (2 * (0 * 2 ^ Z.of_nat j + low) <? 2 * 2 ^ Z.of_nat j) with true
        by (symmetry; apply Z.ltb_lt; lia).
      reflexivity.
    + replace (2 * (0 * 2 ^ Z.of_nat j + low) <? 2 * 2 ^ Z.of_nat j) with true
        by (symmetry; apply Z.ltb_lt; lia).
      reflexivity.
Qed.

Lemma Zdigits2_bounds m :
  0 < m -> 0 < Zdigits2 m /\ 2 ^ (Zdigits2 m - 1) <= m < 2 ^ Zdigits2 m.
Proof.
  destruct m as [|p|p]; try lia. intros _. simpl Zdigits2.
  split; [lia | apply digits2_bounds].
Qed.

Lemma Zdigits2_unique m d :
  0 < m -> 2 ^ (d - 1) <= m < 2 ^ d -> Zdigits2 m = d.
Proof.
  intros Hm Hd. destruct (Zdigits2_bounds m Hm) as [Hpos Hb].
  assert (0 < d).
  { destruct (Z.lt_ge_cases 0 d); [assumption|].
    destruct (Z.eq_dec d 0) as [->|]; [simpl in Hd; lia|].
    rewrite (Z.pow_neg_r 2 d) in Hd by lia. lia. }
  destruct (Z.lt_trichotomy (Zdigits2 m) d) as [Hlt|[Heq|Hgt]]; [|assumption|].
  - assert (2 ^ Zdigits2 m <= 2 ^ (d - 1)) by (apply Z.pow_le_mono_r; lia). lia.
  - assert (2 ^ d <= 2 ^ (Zdigits2 m - 1)) by (apply Z.pow_le_mono_r; lia). lia.
Qed.

Lemma rne_bounds m k :
  0 <= m -> 0 <= k -> m / 2 ^ k <= rne m k <= m / 2 ^ k + 1.
Proof.
  intros Hm Hk. unfold rne.
  destruct (_ <? _); [lia|]. destruct (_ <? _); [lia|].
  destruct (Z.even _); lia.
Qed.

Lemma rne_exact m k :
  0 <= m -> 0 <= k -> m mod 2 ^ k = 0 -> rne m k = m / 2 ^ k.
Proof.
  intros Hm Hk H. unfold rne. rewrite H.
  assert (0 < 2 ^ k) by (apply Z.pow_pos_nonneg; lia).
  replace (2 * 0 <? 2 ^ k) with true by (symmetry; apply Z.ltb_lt; lia).
  reflexivity.
Qed.

(** The mantissa kept by the first shift and its rounding. *)
Lemma rne_range m e :
  0 < m ->
  let E := fexp prec emax (Zdigits2 m + e) in
  e <= E ->
  0 <= rne m (E - e) <= 2 ^ 53 /\
  (-1074 < E -> 2 ^ 52 <= rne m (E - e)).
Proof.
  intros Hm E HE.
  destruct (Zdigits2_bounds m Hm) as [Hd [Hlo Hhi]].
  set (d := Zdigits2 m) in *. set (k := E - e).
  assert (Hk : 0 <= k) by (unfold k; lia).
  assert (HEq : E = Z.max (d + e - 53) (-1074)) by reflexivity.
  assert (Hpk : 0 < 2 ^ k) by (apply Z.pow_pos_nonneg; lia).
  pose proof (rne_bounds m k (Z.lt_le_incl _ _ Hm) Hk) as Hr.
  assert (Hq0 : 0 <= m / 2 ^ k) by (apply Z.div_pos; lia).
  assert (Hqhi : m / 2 ^ k < 2 ^ 53).
  { apply Z.div_lt_upper_bound; [lia|].
    rewrite <- Z.pow_add_r by lia.
    apply Z.lt_le_trans with (2 ^ d); [assumption|].
    apply Z.pow_le_mono_r; lia. }
  split; [lia|].
  intros Hn. assert (Hdk : d - 1 = k + 52) by lia.
  assert (2 ^ 52 <= m / 2 ^ k); [|lia].
  apply Z.div_le_lower_bound; [lia|].
  rewrite <- Z.pow_add_r by lia.
  replace (k + 52) with (d - 1) by lia. assumption.
Qed.

Lemma shr_nonpos mrs e n : n <= 0 -> shr mrs e n = (mrs, e).
Proof. destruct n; try reflexivity. lia. Qed.

Lemma bra_closed sx m e :
  0 < m -> e <= fexp prec emax (Zdigits2 m + e) ->
  binary_round_aux prec emax sx m e loc_Exact = rnd sx m e.
Proof.
  intros Hm HE.
  destruct (rne_range m e Hm HE) as [Hq1 Hnorm].
  unfold binary_round_aux, rnd, shr_fexp.
  set (E := fexp prec emax (Zdigits2 m + e)) in *.
  cbn [shr_record_of_loc].
  destruct (shr_rne m e (E - e)) as (mrs & Hshr & _ & Hround); [lia|lia|].
  rewrite Hshr, Hround. replace (e + (E - e)) with E by lia.
  set (q1 := rne m (E - e)) in *.
  assert (HEmin : -1074 <= E) by (unfold E; rewrite fexp_eq; lia).
  destruct (Z.eqb_spec q1 (2 ^ 53)) as [Heq|Hne].
  - (* the rounding carried into the next binade *)
    rewrite Heq.
    replace (fexp prec emax (Zdigits2 (2 ^ 53) + E) - E) with 1
      by (rewrite fexp_eq; change (Zdigits2 (2 ^ 53)) with 54; lia).
    destruct (shr_rne (2 ^ 53) E 1) as (mrs2 & Hshr2 & Hm2 & _); [lia|lia|].
    rewrite Hshr2, Hm2. reflexivity.
  - assert (Hle : fexp prec emax (Zdigits2 q1 + E) - E <= 0).
    { rewrite fexp_eq. destruct (Z.eq_dec q1 0) as [->|H0]; [simpl; lia|].
      assert (Hpos : 0 < q1) by lia.
      destruct (Zdigits2_bounds q1 Hpos) as [Hd [Hlo Hhi]].
      assert (Zdigits2 q1 <= 53); [|lia].
      destruct (Z.le_gt_cases (Zdigits2 q1) 53); [assumption|].
      assert (2 ^ 53 <= 2 ^ (Zdigits2 q1 - 1)) by (apply Z.pow_le_mono_r; lia).
      lia. }
    rewrite (shr_nonpos _ _ _ Hle). reflexivity.
Qed.

Lemma rne_mono m1 m2 k :
  0 <= m1 <= m2 -> 0 <= k -> rne m1 k <= rne m2 k.
Proof.
  intros Hm Hk.
  assert (HP : 0 < 2 ^ k) by (apply Z.pow_pos_nonneg; lia).
  pose proof (Z.div_le_mono m1 m2 (2 ^ k) HP (proj2 Hm)) as Hq.
  pose proof (Z.div_mod m1 (2 ^ k)) as H1.
  pose proof (Z.div_mod m2 (2 ^ k)) as H2.
  pose proof (Z.mod_pos_bound m1 (2 ^ k) HP) as Hr1.
  pose proof (Z.mod_pos_bound m2 (2 ^ k) HP) as Hr2.
  unfold rne.
  set (q1 := m1 / 2 ^ k) in *. set (q2 := m2 / 2 ^ k) in *.
  set (r1 := m1 mod 2 ^ k) in *. set (r2 := m2 mod 2 ^ k) in *.
  set (P := 2 ^ k) in *.
  specialize (H1 ltac:(lia)). specialize (H2 ltac:(lia)).
  destruct (Z.eq_dec q1 q2) as [Heq|Hne].
  - rewrite <- Heq in *. assert (r1 <= r2) by lia.
    destruct (Z.ltb_spec (2 * r1) P), (Z.ltb_spec (2 * r2) P),
      (Z.ltb_spec P (2 * r1)), (Z.ltb_spec P (2 * r2)),
      (Z.even q1); lia.
  - assert (q1 + 1 <= q2) by lia.
    destruct (Z.ltb_spec (2 * r1) P), (Z.ltb_spec (2 * r2) P),
      (Z.ltb_spec P (2 * r1)), (Z.ltb_spec P (2 * r2)),
      (Z.even q1), (Z.even q2); lia.
Qed.

Lemma rne_scale m k j :
  0 <= m -> 0 <= k -> 0 <= j -> rne (m * 2 ^ j) (k + j) = rne m k.
Proof.
  intros Hm Hk Hj.
  assert (HK : 0 < 2 ^ k) by (apply Z.pow_pos_nonneg; lia).
  assert (HJ : 0 < 2 ^ j) by (apply Z.pow_pos_nonneg; lia).
  unfold rne. rewrite Z.pow_add_r by lia.
  rewrite Z.div_mul_cancel_r by lia.
  rewrite Z.mul_mod_distr_r by lia.
  set (q := m / 2 ^ k). set (r := m mod 2 ^ k). set (K := 2 ^ k) in *.
  set (J := 2 ^ j) in *.
  replace (2 * (r * J) <? K * J) with (2 * r <? K).
  2:{ destruct (Z.ltb_spec (2 * r) K), (Z.ltb_spec (2 * (r * J)) (K * J));
        try reflexivity; nia. }
  replace (K * J <? 2 * (r * J)) with (K <? 2 * r).
  2:{ destruct (Z.ltb_spec K (2 * r)), (Z.ltb_spec (K * J) (2 * (r * J)));
        try reflexivity; nia. }
  reflexivity.
Qed.

Lemma Zdigits2_scale m j :
  0 < m -> 0 <= j -> Zdigits2 (m * 2 ^ j) = Zdigits2 m + j.
Proof.
  intros Hm Hj. destruct (Zdigits2_bounds m Hm) as [Hd [Hlo Hhi]].
  assert (HJ : 0 < 2 ^ j) by (apply Z.pow_pos_nonneg; lia).
  apply Zdigits2_unique; [nia|].
  replace (Zdigits2 m + j - 1) with (Zdigits2 m - 1 + j) by lia.
  rewrite !Z.pow_add_r by lia. nia.
Qed.

Lemma rnd_scale sx m e j :
  0 < m -> 0 <= j -> e <= fexp prec emax (Zdigits2 m + e) ->
  rnd sx (m * 2 ^ j) (e - j) = rnd sx m e.
Proof.
  intros Hm Hj HE. unfold rnd.
  rewrite (Zdigits2_scale m j Hm Hj).
  replace (Zdigits2 m + j + (e - j)) with (Zdigits2 m + e) by lia.
  set (E := fexp prec emax (Zdigits2 m + e)) in *.
  replace (E - (e - j)) with (E - e + j) by lia.
  rewrite rne_scale by lia. reflexivity.
Qed.

Lemma Zdigits2_mono m1 m2 : 0 < m1 <= m2 -> Zdigits2 m1 <= Zdigits2 m2.
Proof.
  intros [H1 H12].
  destruct (Zdigits2_bounds m1 H1) as [Hd1 [Hlo1 Hhi1]].
  destruct (Zdigits2_bounds m2 ltac:(lia)) as [Hd2 [Hlo2 Hhi2]].
  destruct (Z.le_gt_cases (Zdigits2 m1) (Zdigits2 m2)); [assumption|].
  assert (2 ^ Zdigits2 m2 <= 2 ^ (Zdigits2 m1 - 1))
    by (apply Z.pow_le_mono_r; lia).
  lia.
Qed.

Lemma pack_le q E q' E' :
  0 <= q -> 0 <= q' ->
  q = 0 \/ (0 < q' /\ (E < E' \/ (E = E' /\ q <= q'))) ->
  SFleb (pack false q E) (pack false q' E') = true.
Proof.
  intros Hq Hq' H. unfold pack.
  destruct q as [|p|p], q' as [|p'|p']; try lia;
    destruct (Z.leb_spec E 971), (Z.leb_spec E' 971);
    unfold SFleb, SFcompare; try reflexivity; try lia.
  rewrite Pos.compare_cont_spec.
  destruct (Z.compare_spec E E'); try reflexivity; try lia.
  destruct (Pos.compare_spec p p'); try reflexivity; lia.
Qed.

Lemma rnd_mono m1 m2 e :
  0 < m1 <= m2 -> e <= fexp prec emax (Zdigits2 m1 + e) ->
  SFleb (rnd false m1 e) (rnd false m2 e) = true.
Proof.
  intros [H1 H12] HE1.
  pose proof (Zdigits2_mono m1 m2 (conj H1 H12)) as Hd.
  assert (HE12 : fexp prec emax (Zdigits2 m1 + e)
                 <= fexp prec emax (Zdigits2 m2 + e))
    by (rewrite !fexp_eq; lia).
  assert (HE2 : e <= fexp prec emax (Zdigits2 m2 + e)) by lia.
  destruct (rne_range m1 e H1 HE1) as [Hr1 Hn1].
  destruct (rne_range m2 e ltac:(lia) HE2) as [Hr2 Hn2].
  unfold rnd.
  set (E1 := fexp prec emax (Zdigits2 m1 + e)) in *.
  set (E2 := fexp prec emax (Zdigits2 m2 + e)) in *.
  assert (HEmin : -1074 <= E1) by (unfold E1; rewrite fexp_eq; lia).
  assert (Hmono : E1 = E2 -> rne m1 (E1 - e) <= rne m2 (E2 - e)).
  { intros <-. apply rne_mono; lia. }
  set (a := rne m1 (E1 - e)) in *. set (b := rne m2 (E2 - e)) in *.
  assert (H52 : 2 ^ 52 < 2 ^ 53) by (apply Z.pow_lt_mono_r; lia).
  assert (H0 : 0 < 2 ^ 52) by (apply Z.pow_pos_nonneg; lia).
  destruct (Z.eqb_spec a (2 ^ 53)), (Z.eqb_spec b (2 ^ 53));
    apply pack_le; lia.
Qed.

Lemma iter_xO_pow m d : Zpos (Pos.iter xO m d) = Zpos m * 2 ^ Zpos d.
Proof.
  change (Pos.iter xO m d) with (shift_pos d m).
  rewrite shift_pos_correct. rewrite Z.mul_comm. reflexivity.
Qed.

Lemma binary_round_rnd sx m e e0 :
  e0 <= e -> e0 <= -1074 ->
  binary_round prec emax sx m e = rnd sx (Zpos m * 2 ^ (e - e0)) e0.
Proof.
  intros He H0. unfold binary_round, shl_align.
  set (E := fexp prec emax (Zpos (digits2_pos m) + e)).
  assert (HE : -1074 <= E) by (unfold E; rewrite fexp_eq; lia).
  destruct (E - e) as [|d|d] eqn:Hd.
  - rewrite bra_closed; [|lia|]; [|simpl Zdigits2; fold E; lia].
    rewrite <- (rnd_scale sx (Zpos m) e (e - e0));
      [|lia|lia|simpl Zdigits2; fold E; lia].
    f_equal. lia.
  - rewrite bra_closed; [|lia|]; [|simpl Zdigits2; fold E; lia].
    rewrite <- (rnd_scale sx (Zpos m) e (e - e0));
      [|lia|lia|simpl Zdigits2; fold E; lia].
    f_equal. lia.
  - assert (Hsh : Zpos (Pos.iter xO m d) = Zpos m * 2 ^ (e - E))
      by (rewrite iter_xO_pow; f_equal; f_equal; lia).
    assert (Hdig : Zdigits2 (Zpos (Pos.iter xO m d)) + E
                   = Zpos (digits2_pos m) + e).
    { rewrite Hsh, Zdigits2_scale by lia. simpl Zdigits2. lia. }
    rewrite bra_closed; [|lia|]; [|rewrite Hdig; fold E; lia].
    rewrite <- (rnd_scale sx (Zpos (Pos.iter xO m d)) E (E - e0));
      [|lia|lia|rewrite Hdig; fold E; lia].
    rewrite Hsh, <- Z.mul_assoc, <- Z.pow_add_r by lia.
    f_equal; [f_equal; f_equal; lia | lia].
Qed.

Lemma binary_normalize_rnd N e e0 :
  e0 <= e -> e0 <= -1074 ->
  binary_normalize prec emax N e false = rnd_int e0 (N * 2 ^ (e - e0)).
Proof.
  intros He H0.
  assert (HP : 0 < 2 ^ (e - e0)) by (apply Z.pow_pos_nonneg; lia).
  unfold binary_normalize.
  destruct N as [|p|p].
  - reflexivity.
  - rewrite (binary_round_rnd false p e e0 He H0).
    destruct (Zpos p * 2 ^ (e - e0)) as [|q|q] eqn:E; try lia. reflexivity.
  - rewrite (binary_round_rnd true p e e0 He H0).
    assert (Hneg : Zneg p * 2 ^ (e - e0) = - (Zpos p * 2 ^ (e - e0))) by lia.
    rewrite Hneg.
    destruct (Zpos p * 2 ^ (e - e0)) as [|q|q] eqn:E; try lia. reflexivity.
Qed.

Lemma SFleb_unsign x y : SFleb x y = SFleb (unsign x) (unsign y).
Proof. destruct x as [[]|[]| |[] ? ?], y as [[]|[]| |[] ? ?]; reflexivity. Qed.

Lemma SFleb_opp x y : SFleb (SFopp x) (SFopp y) = SFleb y x.
Proof.
  destruct x as [[]|[]| |[] mx ex], y as [[]|[]| |[] my ey];
    try reflexivity; unfold SFleb, SFopp, SFcompare, negb;
    rewrite !Pos.compare_cont_spec; rewrite (Z.compare_antisym ex ey);
    rewrite (Pos.compare_antisym mx my);
    destruct (ex ?= ey); simpl; try reflexivity;
    destruct (mx ?= my)%positive; reflexivity.
Qed.

Lemma pack_opp q E : 0 <= q -> pack true q E = SFopp (pack false q E).
Proof.
  intros Hq. unfold pack. destruct q; try lia; try reflexivity.
  destruct (E <=? 971); reflexivity.
Qed.

Lemma rnd_opp m e :
  0 < m -> e <= fexp prec emax (Zdigits2 m + e) ->
  rnd true m e = SFopp (rnd false m e).
Proof.
  intros Hm HE. destruct (rne_range m e Hm HE) as [Hr _]. unfold rnd.
  destruct (_ =? _); apply pack_opp; [|lia].
  apply Z.pow_nonneg. lia.
Qed.

Lemma pack_sign_le q E q' E' :
  0 <= q -> 0 <= q' -> SFleb (pack true q E) (pack false q' E') = true.
Proof.
  intros Hq Hq'. unfold pack.
  destruct q, q'; try lia; destruct (E <=? 971), (E' <=? 971); reflexivity.
Qed.

Lemma rnd_sign_le m1 m2 e :
  0 < m1 -> 0 < m2 -> e <= -1074 ->
  SFleb (rnd true m1 e) (rnd false m2 e) = true.
Proof.
  intros H1 H2 He.
  assert (HE1 : e <= fexp prec emax (Zdigits2 m1 + e)) by (rewrite fexp_eq; lia).
  assert (HE2 : e <= fexp prec emax (Zdigits2 m2 + e)) by (rewrite fexp_eq; lia).
  destruct (rne_range m1 e H1 HE1) as [Hr1 _].
  destruct (rne_range m2 e H2 HE2) as [Hr2 _].
  assert (0 <= 2 ^ 52) by (apply Z.pow_nonneg; lia).
  unfold rnd. destruct (_ =? _), (_ =? _); apply pack_sign_le; lia.
Qed.

Lemma pack_zero_le q E : 0 <= q -> SFleb (S754_zero false) (pack false q E) = true.
Proof.
  intros Hq. unfold pack. destruct q; try lia; try reflexivity.
  destruct (E <=? 971); reflexivity.
Qed.

Lemma pack_le_zero q E : 0 <= q -> SFleb (pack true q E) (S754_zero false) = true.
Proof.
  intros Hq. unfold pack. destruct q; try lia; try reflexivity.
  destruct (E <=? 971); reflexivity.
Qed.

Lemma rnd_int_mono e0 N1 N2 :
  e0 <= -1074 -> N1 <= N2 ->
  SFleb (rnd_int e0 N1) (rnd_int e0 N2) = true.
Proof.
  intros He HN.
  assert (HE : forall m, e0 <= fexp prec emax (Zdigits2 m + e0))
    by (intros m; rewrite fexp_eq; lia).
  assert (Hr : forall p, 0 <= rne (Zpos p) (fexp prec emax (Zdigits2 (Zpos p) + e0) - e0))
    by (intros p; apply (rne_range (Zpos p) e0); [lia | apply HE]).
  assert (H52 : 0 <= 2 ^ 52) by (apply Z.pow_nonneg; lia).
  destruct N1 as [|p1|p1], N2 as [|p2|p2]; try lia; unfold rnd_int.
  - reflexivity.
  - unfold rnd. destruct (_ =? _); apply pack_zero_le; auto.
  - apply rnd_mono; [lia | apply HE].
  - unfold rnd. destruct (_ =? _); apply pack_le_zero; auto.
  - apply rnd_sign_le; lia.
  - rewrite !rnd_opp by (try lia; apply HE). rewrite SFleb_opp.
    apply rnd_mono; [lia | apply HE].
Qed.

Lemma valid_finite s m e :
  valid_binary (S754_finite s m e) = true ->
  fexp prec emax (Zpos (digits2_pos m) + e) = e /\ -1074 <= e <= 971.
Proof.
  unfold SpecFloat.valid_binary, bounded, canonical_mantissa.
  rewrite andb_true_iff, Z.eqb_eq, Z.leb_le. intros [Hc Hb].
  split; [assumption|]. split; [|exact Hb].
  rewrite <- Hc, fexp_eq. lia.
Qed.

Lemma rnd_id s m e :
  valid_binary (S754_finite s m e) = true ->
  rnd s (Zpos m) e = S754_finite s m e.
Proof.
  intros Hv. destruct (valid_finite s m e Hv) as [Hc [Hlo Hhi]].
  unfold rnd. simpl Zdigits2. rewrite Hc, Z.sub_diag.
  rewrite rne_exact by (simpl; try lia; apply Z.mod_1_r).
  simpl (2 ^ 0). rewrite Z.div_1_r.
  destruct (Z.eqb_spec (Zpos m) (2 ^ 53)) as [Heq|Hne].
  - exfalso. assert (Hd : Zpos (digits2_pos m) = 54).
    { change (Zpos (digits2_pos m)) with (Zdigits2 (Zpos m)). now rewrite Heq. }
    rewrite Hd, fexp_eq in Hc. lia.
  - unfold pack. replace (e <=? 971) with true by (symmetry; apply Z.leb_le; lia).
    reflexivity.
Qed.

Lemma rnd_int_val x :
  sf_fin x = true -> valid_binary x = true ->
  rnd_int (-1074) (val x) = unsign x.
Proof.
  destruct x as [s|s| |s m e]; try discriminate; intros _ Hv; [reflexivity|].
  destruct (valid_finite s m e Hv) as [Hc [Hlo Hhi]].
  assert (HP : 0 < 2 ^ (e + 1074)) by (apply Z.pow_pos_nonneg; lia).
  assert (Hs : rnd s (Zpos m * 2 ^ (e + 1074)) (-1074) = S754_finite s m e).
  { transitivity (rnd s (Zpos m * 2 ^ (e + 1074)) (e - (e + 1074)));
      [f_equal; lia|].
    rewrite rnd_scale; [apply rnd_id; assumption|lia|lia|].
    simpl Zdigits2. lia. }
  simpl unsign. unfold val, rnd_int.
  destruct (Zpos m * 2 ^ (e + 1074)) as [|q|q] eqn:E; try lia.
  destruct s; simpl cond_Zopp; exact Hs.
Qed.


Lemma rnd_valid s m e :
  0 < m -> e <= fexp prec emax (Zdigits2 m + e) ->
  valid_binary (rnd s m e) = true.
Proof.
  intros Hm HE. destruct (rne_range m e Hm HE) as [Hr Hn]. unfold rnd.
  set (E := fexp prec emax (Zdigits2 m + e)) in *.
  assert (HEmin : -1074 <= E) by (unfold E; rewrite fexp_eq; lia).
  set (q := rne m (E - e)) in *.
  destruct (Z.eqb_spec q (2 ^ 53)) as [Heq|Hne].
  - unfold pack. change (2 ^ 52) with 4503599627370496.
    destruct (Z.leb_spec (E + 1) 971); [|reflexivity].
    unfold SpecFloat.valid_binary, bounded, canonical_mantissa.
    apply andb_true_iff. split; [|apply Z.leb_le; change (emax - prec) with 971; lia].
    apply Z.eqb_eq. rewrite fexp_eq.
    change (Zpos (digits2_pos 4503599627370496)) with 53. lia.
  - unfold pack. destruct q as [|p|p] eqn:Hq; try reflexivity.
    destruct (Z.leb_spec E 971); [|reflexivity].
    unfold SpecFloat.valid_binary, bounded, canonical_mantissa.
    apply andb_true_iff. split; [|apply Z.leb_le; change (emax - prec) with 971; lia].
    apply Z.eqb_eq. rewrite fexp_eq.
    change (Zpos (digits2_pos p)) with (Zdigits2 (Zpos p)).
    destruct (Zdigits2_bounds (Zpos p) ltac:(lia)) as [Hd [Hlo Hhi]].
    assert (Hd53 : Zdigits2 (Zpos p) <= 53).
    { destruct (Z.le_gt_cases (Zdigits2 (Zpos p)) 53); [assumption|].
      assert (2 ^ 53 <= 2 ^ (Zdigits2 (Zpos p) - 1))
        by (apply Z.pow_le_mono_r; lia).
      lia. }
    destruct (Z.eq_dec E (-1074)) as [->|HE']; [lia|].
    assert (Hq52 : 2 ^ 52 <= Zpos p) by (apply Hn; lia).
    assert (Zdigits2 (Zpos p) = 53); [|lia].
    apply Zdigits2_unique; [lia|]. simpl (53 - 1). lia.
Qed.

Lemma rnd_int_valid e0 N :
  e0 <= -1074 -> valid_binary (rnd_int e0 N) = true.
Proof.
  intros He. destruct N as [|p|p]; [reflexivity| |];
    apply rnd_valid; try lia; rewrite fexp_eq; lia.
Qed.

Lemma rnd_int_not_nan e0 N : e0 <= -1074 -> rnd_int e0 N <> S754_nan.
Proof.
  intros He.
  assert (H : forall s p, rnd s (Zpos p) e0 <> S754_nan).
  { intros s p.
    destruct (rne_range (Zpos p) e0) as [Hr _];
      [lia | rewrite fexp_eq; lia |].
    unfold rnd. destruct (_ =? _).
    - unfold pack. change (2 ^ 52) with 4503599627370496. destruct (_ <=? _); discriminate.
    - unfold pack. destruct (rne _ _); try lia; try discriminate.
      destruct (_ <=? _); discriminate. }
  destruct N; simpl; [discriminate|apply H|apply H].
Qed.


Lemma shl_align_fst mx ex ez :
  ez <= ex -> Zpos (fst (shl_align mx ex ez)) = Zpos mx * 2 ^ (ex - ez).
Proof.
  intros H. unfold shl_align.
  destruct (ez - ex) as [|d|d] eqn:E; try lia.
  - replace (ex - ez) with 0 by lia. simpl fst. lia.
  - simpl fst. rewrite iter_xO_pow. f_equal. f_equal. lia.
Qed.

Lemma cond_Zopp_mul s a b : cond_Zopp s a * b = cond_Zopp s (a * b).
Proof. destruct s; simpl; lia. Qed.

Lemma val_finite s m e :
  -1074 <= e ->
  forall ez, -1074 <= ez <= e ->
  cond_Zopp s (Zpos m * 2 ^ (e - ez)) * 2 ^ (ez + 1074)
  = val (S754_finite s m e).
Proof.
  intros He ez Hez. rewrite cond_Zopp_mul. unfold val. f_equal.
  rewrite <- Z.mul_assoc, <- Z.pow_add_r by lia.
  replace (e - ez + (ez + 1074)) with (e + 1074) by lia. reflexivity.
Qed.

Lemma SFadd_val x y :
  sf_fin x = true -> sf_fin y = true ->
  valid_binary x = true -> valid_binary y = true ->
  unsign (SF64add x y) = unsign (rnd_int (-1074) (val x + val y)).
Proof.
  intros Fx Fy Vx Vy.
  destruct x as [sx|sx| |sx mx ex]; try discriminate;
  destruct y as [sy|sy| |sy my ey]; try discriminate.
  - destruct sx, sy; reflexivity.
  - change (val (S754_zero sx)) with 0. rewrite Z.add_0_l.
    rewrite rnd_int_val by assumption. reflexivity.
  - change (val (S754_zero sy)) with 0. rewrite Z.add_0_r.
    rewrite rnd_int_val by assumption. reflexivity.
  - destruct (valid_finite _ _ _ Vx) as [_ [Hx _]].
    destruct (valid_finite _ _ _ Vy) as [_ [Hy _]].
    unfold SF64add, SFadd.
    set (ez := Z.min ex ey).
    rewrite (binary_normalize_rnd _ ez (-1074)) by lia.
    f_equal. f_equal.
    rewrite !shl_align_fst by lia.
    replace (ez - -1074) with (ez + 1074) by lia.
    rewrite Z.mul_add_distr_r.
    rewrite (val_finite sx mx ex Hx ez) by lia.
    rewrite (val_finite sy my ey Hy ez) by lia. reflexivity.
Qed.

Lemma SFsub_val x y :
  sf_fin x = true -> sf_fin y = true ->
  valid_binary x = true -> valid_binary y = true ->
  unsign (SF64sub x y) = unsign (rnd_int (-1074) (val x - val y)).
Proof.
  intros Fx Fy Vx Vy.
  destruct x as [sx|sx| |sx mx ex]; try discriminate;
  destruct y as [sy|sy| |sy my ey]; try discriminate.
  - destruct sx, sy; reflexivity.
  - change (val (S754_zero sx)) with 0. rewrite Z.sub_0_l.
    assert (Hopp : - val (S754_finite sy my ey)
                   = val (S754_finite (negb sy) my ey))
      by (destruct sy; simpl; lia).
    rewrite Hopp, rnd_int_val; [reflexivity|reflexivity|exact Vy].
  - change (val (S754_zero sy)) with 0. rewrite Z.sub_0_r.
    rewrite rnd_int_val by assumption. reflexivity.
  - destruct (valid_finite _ _ _ Vx) as [_ [Hx _]].
    destruct (valid_finite _ _ _ Vy) as [_ [Hy _]].
    unfold SF64sub, SFsub.
    set (ez := Z.min ex ey).
    rewrite (binary_normalize_rnd _ ez (-1074)) by lia.
    f_equal. f_equal.
    rewrite !shl_align_fst by lia.
    replace (ez - -1074) with (ez + 1074) by lia.
    rewrite Z.mul_sub_distr_r.
    rewrite (val_finite sx mx ex Hx ez) by lia.
    rewrite (val_finite sy my ey Hy ez) by lia. reflexivity.
Qed.

Lemma cond_Zopp_xorb sx sy a b :
  cond_Zopp sx a * cond_Zopp sy b = cond_Zopp (xorb sx sy) (a * b).
Proof. destruct sx, sy; simpl; lia. Qed.

Lemma rnd_int_cond s M e0 :
  0 < M -> rnd_int e0 (cond_Zopp s M) = rnd s M e0.
Proof.
  intros HM. destruct M as [|p|p]; try lia. destruct s; reflexivity.
Qed.

Lemma mul_precondition sx mx ex sy my ey :
  valid_binary (S754_finite sx mx ex) = true ->
  valid_binary (S754_finite sy my ey) = true ->
  ex + ey <= fexp prec emax (Zdigits2 (Zpos (mx * my)) + (ex + ey)).
Proof.
  intros Vx Vy.
  destruct (valid_finite _ _ _ Vx) as [Hcx [Hx _]].
  destruct (valid_finite _ _ _ Vy) as [Hcy [Hy _]].
  destruct (Zdigits2_bounds (Zpos mx) ltac:(lia)) as [Hdx [Hlx Hhx]].
  destruct (Zdigits2_bounds (Zpos my) ltac:(lia)) as [Hdy [Hly Hhy]].
  destruct (Zdigits2_bounds (Zpos (mx * my)) ltac:(lia)) as [Hd [Hl Hh]].
  simpl Zdigits2 in *.
  set (dx := Zpos (digits2_pos mx)) in *.
  set (dy := Zpos (digits2_pos my)) in *.
  set (d := Zpos (digits2_pos (mx * my))) in *.
  assert (Hdd : dx + dy - 2 < d).
  { apply (Z.pow_lt_mono_r_iff 2); [lia|lia|].
    replace (dx + dy - 2) with ((dx - 1) + (dy - 1)) by lia.
    rewrite Z.pow_add_r by lia.
    rewrite Pos2Z.inj_mul in Hh.
    assert (0 < 2 ^ (dx - 1)) by (apply Z.pow_pos_nonneg; lia).
    assert (0 < 2 ^ (dy - 1)) by (apply Z.pow_pos_nonneg; lia).
    nia. }
  rewrite fexp_eq in *. lia.
Qed.

Lemma SFmul_val x y :
  sf_fin x = true -> sf_fin y = true ->
  valid_binary x = true -> valid_binary y = true ->
  unsign (SF64mul x y) = unsign (rnd_int (-2148) (val x * val y)).
Proof.
  intros Fx Fy Vx Vy.
  destruct x as [sx|sx| |sx mx ex]; try discriminate;
  destruct y as [sy|sy| |sy my ey]; try discriminate;
    try (change (val (S754_zero sx)) with 0; rewrite Z.mul_0_l; reflexivity);
    try (change (val (S754_zero sy)) with 0; rewrite Z.mul_0_r; reflexivity).
  destruct (valid_finite _ _ _ Vx) as [_ [Hx _]].
  destruct (valid_finite _ _ _ Vy) as [_ [Hy _]].
  pose proof (mul_precondition sx mx ex sy my ey Vx Vy) as Hpre.
  unfold SF64mul, SFmul.
  rewrite bra_closed by (try lia; exact Hpre).
  f_equal. unfold val. rewrite cond_Zopp_xorb.
  assert (HP : 0 < 2 ^ (ex + ey + 2148)) by (apply Z.pow_pos_nonneg; lia).
  replace (Zpos mx * 2 ^ (ex + 1074) * (Zpos my * 2 ^ (ey + 1074)))
    with (Zpos (mx * my) * 2 ^ (ex + ey + 2148)).
  2:{ replace (ex + ey + 2148) with ((ex + 1074) + (ey + 1074)) by lia.
      rewrite Z.pow_add_r by lia. rewrite Pos2Z.inj_mul. ring. }
  rewrite rnd_int_cond by lia.
  transitivity (rnd (xorb sx sy) (Zpos (mx * my) * 2 ^ (ex + ey + 2148))
                  (ex + ey - (ex + ey + 2148))); [|f_equal; lia].
  symmetry. apply rnd_scale; [lia|lia|exact Hpre].
Qed.

End Rounding.

(** ** Order and arithmetic of finite binary64 numbers through their values *)

Section FloatArith.

Local Open Scope float_scope.
Import FloatOrder Rounding.

Lemma SFeqb_unsign x y : SFeqb x y = SFeqb (unsign x) (unsign y).
Proof. destruct x as [[]|[]| |[] ? ?], y as [[]|[]| |[] ? ?]; reflexivity. Qed.





Lemma between_fin a x b :
  ffin a = true -> ffin b = true ->
  (a <=? x) = true -> (x <=? b) = true -> ffin x = true.
Proof.
  unfold ffin. rewrite !FloatAxioms.leb_spec.
  destruct (Prim2SF a) as [[]|[]| |[] ? ?], (Prim2SF x) as [[]|[]| |[] ? ?],
    (Prim2SF b) as [[]|[]| |[] ? ?]; try discriminate; reflexivity.
Qed.


Lemma add_fin_inv a b : ffin (a + b) = true -> ffin a = true /\ ffin b = true.
Proof.
  unfold ffin. rewrite add_spec.
  destruct (Prim2SF a) as [[]|[]| |[] ? ?], (Prim2SF b) as [[]|[]| |[] ? ?];
    try discriminate; auto.
Qed.

Lemma is_finite_ffin x : is_finite x = true -> ffin x = true.
Proof.
  unfold is_finite, is_infinity, ffin.
  rewrite is_nan_spec, FloatAxioms.eqb_spec, abs_spec.
  change (Prim2SF infinity) with (S754_infinity false).
  destruct (Prim2SF x) as [[]|[]| |[] ? ?]; try discriminate; reflexivity.
Qed.





(** The difference of two finite numbers is zero when they are equal and
    is above zero when the first is the greater. *)
Lemma sub_zero x y :
  ffin x = true -> ffin y = true -> fval x = fval y -> (x - y =? 0) = true.
Proof.
  intros Fx Fy H.
  rewrite FloatAxioms.eqb_spec, sub_spec, SFeqb_unsign.
  rewrite SFsub_val by (auto using Prim2SF_valid).
  fold (fval x) (fval y). rewrite H, Z.sub_diag. reflexivity.
Qed.


(** Finite operands never produce a NaN. *)
Lemma unsign_not_nan X N e0 :
  (e0 <= -1074)%Z -> unsign X = unsign (rnd_int e0 N) -> SFnan X = false.
Proof.
  intros He H. pose proof (rnd_int_not_nan e0 N He) as Hn.
  destruct X; try reflexivity.
  destruct (rnd_int e0 N); try discriminate. congruence.
Qed.

Lemma mul_not_nan a b :
  ffin a = true -> ffin b = true -> is_nan (a * b) = false.
Proof.
  intros Fa Fb. rewrite is_nan_spec, mul_spec.
  apply (unsign_not_nan _ (fval a * fval b) (-2148)); [lia|].
  apply SFmul_val; auto using Prim2SF_valid.
Qed.

Lemma add_not_nan x c :
  is_nan x = false -> ffin c = true -> is_nan (x + c) = false.
Proof.
  intros Hx Fc. destruct (ffin x) eqn:Fx.
  - rewrite is_nan_spec, add_spec.
    apply (unsign_not_nan _ (fval x + fval c) (-1074)); [lia|].
    apply SFadd_val; auto using Prim2SF_valid.
  - revert Hx Fx Fc. unfold ffin. rewrite !is_nan_spec, add_spec.
    destruct (Prim2SF x) as [[]|[]| |[] ? ?], (Prim2SF c) as [[]|[]| |[] ? ?];
      try discriminate; reflexivity.
Qed.

Lemma sub_not_nan x e :
  is_nan x = false -> ffin e = true -> is_nan (x - e) = false.
Proof.
  intros Hx Fe. destruct (ffin x) eqn:Fx.
  - rewrite is_nan_spec, sub_spec.
    apply (unsign_not_nan _ (fval x - fval e) (-1074)); [lia|].
    apply SFsub_val; auto using Prim2SF_valid.
  - revert Hx Fx Fe. unfold ffin. rewrite !is_nan_spec, sub_spec.
    destruct (Prim2SF x) as [[]|[]| |[] ? ?], (Prim2SF e) as [[]|[]| |[] ? ?];
      try discriminate; reflexivity.
Qed.

Lemma Prim2SF_float_of_int z :
  Prim2SF (float_of_int z) = rnd_int (-1074) (z * 2 ^ 1074).
Proof.
  unfold float_of_int.
  rewrite (binary_normalize_rnd z 0 (-1074)) by lia.
  rewrite Prim2SF_SF2Prim by (apply rnd_int_valid; lia). reflexivity.
Qed.

Lemma float_of_int_mono p q :
  (p <= q)%Z -> (float_of_int p <=? float_of_int q) = true.
Proof.
  intros H. rewrite FloatAxioms.leb_spec, !Prim2SF_float_of_int.
  apply rnd_int_mono; lia.
Qed.


End FloatArith.

(** ** Integers that convert, and numeric arrays *)

Section Conversions.

Local Open Scope float_scope.
Import FloatOrder.

Lemma ffin_is_finite x : ffin x = true -> is_finite x = true.
Proof.
  unfold is_finite, is_infinity, ffin.
  rewrite is_nan_spec, FloatAxioms.eqb_spec, abs_spec.
  change (Prim2SF infinity) with (S754_infinity false).
  destruct (Prim2SF x) as [[]|[]| |[] ? ?]; try discriminate; reflexivity.
Qed.

(** Integers of magnitude up to [2^65] are far below the largest float. *)
Lemma float_of_int_finite z :
  (- 2 ^ 65 <= z <= 2 ^ 65)%Z -> is_finite (float_of_int z) = true.
Proof.
  intros [Hlo Hhi]. apply ffin_is_finite.
  apply (between_fin (float_of_int (- 2 ^ 65)) _ (float_of_int (2 ^ 65)));
    [reflexivity | reflexivity | |]; now apply float_of_int_mono.
Qed.

Lemma PyLong_AsDouble_ok z :
  (- 2 ^ 65 <= z <= 2 ^ 65)%Z -> PyLong_AsDouble z = Ok (float_of_int z).
Proof.
  intros H. unfold PyLong_AsDouble. now rewrite (float_of_int_finite z H).
Qed.

Lemma is_numeric_In ns p :
  np.is_numeric ns = true -> In p ns -> (- 2 ^ 63 <= p < 2 ^ 64)%Z.
Proof.
  unfold np.is_numeric, np.fits_64_bits. rewrite forallb_forall.
  intros H Hp. specialize (H p Hp). apply andb_true_iff in H.
  destruct H as [H1 H2]. apply Z.leb_le in H1. apply Z.ltb_lt in H2. lia.
Qed.

Lemma hd_In (ns : list Z) d : ns <> [] -> In (hd d ns) ns.
Proof. destruct ns; [congruence | now left]. Qed.

Lemma last_In (ns : list Z) d : ns <> [] -> In (last ns d) ns.
Proof.
  induction ns as [|p ns IH]; [congruence|]. intros _.
  destruct ns as [|q ns]; [now left|].
  right. apply IH. discriminate.
Qed.

(** On a numeric sweep the two conversions of the cell succeed. *)
Lemma numeric_range_converts ns :
  np.is_numeric ns = true -> ns <> [] ->
  PyLong_AsDouble (last ns 0%Z - hd 0%Z ns)
  = Ok (float_of_int (last ns 0%Z - hd 0%Z ns)).
Proof.
  intros Hnum Hn. apply PyLong_AsDouble_ok.
  pose proof (is_numeric_In ns _ Hnum (hd_In ns 0%Z Hn)).
  pose proof (is_numeric_In ns _ Hnum (last_In ns 0%Z Hn)).
  change (2 ^ 65)%Z with 36893488147419103232%Z.
  change (2 ^ 64)%Z with 18446744073709551616%Z in *.
  change (2 ^ 63)%Z with 9223372036854775808%Z in *. lia.
Qed.

Lemma numeric_converts ns p :
  np.is_numeric ns = true -> In p ns ->
  PyLong_AsDouble p = Ok (float_of_int p).
Proof.
  intros Hnum Hp. apply PyLong_AsDouble_ok.
  pose proof (is_numeric_In ns _ Hnum Hp).
  change (2 ^ 65)%Z with 36893488147419103232%Z.
  change (2 ^ 64)%Z with 18446744073709551616%Z in *.
  change (2 ^ 63)%Z with 9223372036854775808%Z in *. lia.
Qed.

Lemma numeric_finite ns p :
  np.is_numeric ns = true -> In p ns -> ffin (float_of_int p) = true.
Proof.
  intros Hnum Hp. apply is_finite_ffin, float_of_int_finite.
  pose proof (is_numeric_In ns _ Hnum Hp).
  change (2 ^ 65)%Z with 36893488147419103232%Z.
  change (2 ^ 64)%Z with 18446744073709551616%Z in *.
  change (2 ^ 63)%Z with 9223372036854775808%Z in *. lia.
Qed.

End Conversions.

(** ** What [np.argmax] returns *)

Section ArgmaxFacts.

Local Open Scope float_scope.
Import FloatOrder.


Lemma nth_error_snoc_old {A} (l : list A) x j a :
  nth_error (l ++ [x]) j = Some a -> (j < List.length l)%nat ->
  nth_error l j = Some a.
Proof. intros H Hj. now rewrite nth_error_app1 in H. Qed.

Lemma nth_error_snoc_cases {A} (l : list A) x j a :
  nth_error (l ++ [x]) j = Some a ->
  nth_error l j = Some a \/ (j = List.length l /\ a = x).
Proof.
  intros H. destruct (Nat.lt_ge_cases j (List.length l)) as [Hj|Hj].
  - left. now apply nth_error_snoc_old with x.
  - right. rewrite nth_error_app2 in H by assumption.
    destruct (j - List.length l)%nat as [|m] eqn:E; simpl in H.
    + split; [lia | congruence].
    + destruct m; discriminate.
Qed.

Lemma argmax_loop_first_max ip : forall pre mp max_ind,
  nth_error pre max_ind = Some mp ->
  is_nan mp = false ->
  (forall j dj, (j < max_ind)%nat -> nth_error pre j = Some dj ->
                is_nan dj = false /\ (mp <=? dj) = false) ->
  (forall j dj, nth_error pre j = Some dj -> (dj <=? mp) = true) ->
  exists dk,
    first_max (pre ++ ip) (np.argmax_loop mp max_ind (List.length pre) ip) dk.
Proof.
  induction ip as [|x ip IH]; intros pre mp max_ind Hat Hmp Hbefore Hall.
  - simpl. rewrite app_nil_r. exists mp. constructor; auto.
  - assert (Hlt : (max_ind < List.length pre)%nat)
      by (apply nth_error_Some; congruence).
    assert (Hsplit : pre ++ x :: ip = (pre ++ [x]) ++ ip)
      by (rewrite <- app_assoc; reflexivity).
    assert (Hlen : S (List.length pre) = List.length (pre ++ [x]))
      by (rewrite length_app; simpl; lia).
    simpl. destruct (x <=? mp) eqn:Hx; simpl.
    + (* the running maximum stays *)
      rewrite Hsplit, Hlen. apply IH; auto.
      * rewrite nth_error_app1; assumption.
      * intros j dj Hj Hdj. apply Hbefore with j; [assumption|].
        apply nth_error_snoc_old with x; [assumption | lia].
      * intros j dj Hdj.
        destruct (nth_error_snoc_cases _ _ _ _ Hdj) as [Hold|[_ ->]]; eauto.
    + destruct (is_nan x) eqn:Hnan.
      * (* a NaN ends the scan *)
        exists x. constructor.
        -- rewrite nth_error_app2, Nat.sub_diag by lia. reflexivity.
        -- intros j dj Hj Hdj. rewrite nth_error_app1 in Hdj by assumption.
           split; [|now apply leb_nan_l].
           apply Hall in Hdj. now apply leb_not_nan in Hdj.
        -- now left.
      * (* [x] is the new maximum *)
        assert (Hmx : (mp <=? x) = true) by (apply leb_total; assumption).
        rewrite Hsplit, Hlen. apply IH; auto.
        -- rewrite nth_error_app2, Nat.sub_diag by lia. reflexivity.
        -- intros j dj Hj Hdj.
           apply nth_error_snoc_old in Hdj; [|assumption].
           apply Hall in Hdj. split; [now apply leb_not_nan in Hdj|].
           destruct (x <=? dj) eqn:E; [|reflexivity].
           rewrite (leb_trans _ _ _ E Hdj) in Hx. discriminate.
        -- intros j dj Hdj.
           destruct (nth_error_snoc_cases _ _ _ _ Hdj) as [Hold|[_ ->]].
           ++ apply leb_trans with mp; eauto.
           ++ now apply leb_refl.
Qed.

Theorem argmax_first_max d k :
  np.argmax d = Ok k -> exists dk, first_max d k dk.
Proof.
  destruct d as [|mp ip]; simpl; [discriminate|].
  intros H. injection H as <-.
  destruct (is_nan mp) eqn:Hnan.
  - exists mp. constructor; simpl; auto. intros j dj Hj. lia.
  - apply (argmax_loop_first_max ip [mp] mp 0%nat); simpl; auto.
    + intros j dj Hj. lia.
    + intros [|[|j]] dj Hdj; simpl in Hdj; try discriminate.
      injection Hdj as <-. now apply leb_refl.
Qed.

Lemma argmax_nonempty d : d <> [] -> exists k, np.argmax d = Ok k.
Proof. destruct d; [congruence|]. simpl. eauto. Qed.

(** Consequences of [first_max]. *)
Lemma first_max_lt d k dk : first_max d k dk -> (k < List.length d)%nat.
Proof. intros [H _ _]. apply nth_error_Some. congruence. Qed.

Lemma first_max_maximal d k dk j dj :
  first_max d k dk -> nth_error d j = Some dj -> (dk <? dj) = false.
Proof.
  intros [_ _ [Hn|Hall]] Hj.
  - now apply ltb_nan_l.
  - apply leb_not_ltb. eauto.
Qed.

Lemma first_max_upper d k dk j dj :
  first_max d k dk -> is_nan dk = false ->
  nth_error d j = Some dj -> (dj <=? dk) = true.
Proof. intros [_ _ [Hn|Hall]] Hk Hj; [congruence | eauto]. Qed.

Lemma first_max_least d k dk j dj :
  first_max d k dk -> nth_error d j = Some dj ->
  (forall i di, nth_error d i = Some di -> (di <=? dj) = true) ->
  (k <= j)%nat.
Proof.
  intros Hfm Hj Hmax.
  destruct (Nat.le_gt_cases k j) as [|Hlt]; [assumption|].
  destruct (fm_before Hfm _ _ Hlt Hj) as [_ Hno].
  rewrite (Hmax _ _ (fm_at Hfm)) in Hno. discriminate.
Qed.

Lemma first_max_unique d k dk k' dk' :
  first_max d k dk -> first_max d k' dk' -> k = k'.
Proof.
  intros H H'.
  destruct (Nat.lt_trichotomy k k') as [Hlt|[Heq|Hlt]]; [|assumption|]; exfalso.
  - destruct (fm_before H' _ _ Hlt (fm_at H)) as [Hn Hno].
    destruct (fm_all H) as [Hk|Hk]; [congruence|].
    rewrite (Hk _ _ (fm_at H')) in Hno. discriminate.
  - destruct (fm_before H _ _ Hlt (fm_at H')) as [Hn Hno].
    destruct (fm_all H') as [Hk|Hk]; [congruence|].
    rewrite (Hk _ _ (fm_at H)) in Hno. discriminate.
Qed.

End ArgmaxFacts.

(** ** List indexing *)

Section Getitem.

Context {A : Type}.
Implicit Types (l : list A) (x : A).

Lemma getitem_nil (i : Z) : getitem (@nil A) i = Raise IndexError.
Proof.
  unfold getitem. simpl.
  destruct (i <? 0)%Z eqn:E; simpl.
  - apply Z.ltb_lt in E.
    destruct (0 <=? i)%Z eqn:E'; [apply Z.leb_le in E'; lia | reflexivity].
  - destruct (0 <=? i)%Z; simpl; [|reflexivity].
    destruct (i <? 0)%Z; [discriminate | reflexivity].
Qed.

Lemma getitem_nth l (k : nat) x :
  nth_error l k = Some x -> getitem l (Z.of_nat k) = Ok x.
Proof.
  intros H. assert (Hk : (k < List.length l)%nat)
    by (apply nth_error_Some; congruence).
  unfold getitem.
  replace (Z.of_nat k <? 0)%Z with false by (symmetry; apply Z.ltb_ge; lia).
  replace (0 <=? Z.of_nat k)%Z with true by (symmetry; apply Z.leb_le; lia).
  replace (Z.of_nat k <? Z.of_nat (List.length l))%Z with true
    by (symmetry; apply Z.ltb_lt; lia).
  simpl. now rewrite Nat2Z.id, H.
Qed.

Lemma getitem_first l d : l <> [] -> getitem l 0 = Ok (hd d l).
Proof.
  intros H. destruct l as [|x l]; [congruence|].
  apply (getitem_nth (x :: l) 0). reflexivity.
Qed.

Lemma nth_error_last l d :
  l <> [] -> nth_error l (List.length l - 1) = Some (last l d).
Proof.
  induction l as [|x l IH]; [congruence|]. intros _.
  destruct l as [|y l]; [reflexivity|].
  replace (List.length (x :: y :: l) - 1)%nat
    with (S (List.length (y :: l) - 1)) by (simpl; lia).
  change (last (x :: y :: l) d) with (last (y :: l) d).
  simpl nth_error. apply IH. discriminate.
Qed.

Lemma getitem_last l d : l <> [] -> getitem l (-1) = Ok (last l d).
Proof.
  intros H. pose proof (nth_error_last l d H) as Hn.
  assert (Hlen : (0 < List.length l)%nat)
    by (destruct l; [congruence | simpl; lia]).
  unfold getitem. change (-1 <? 0)%Z with true. cbv iota.
  replace (0 <=? Z.of_nat (List.length l) + -1)%Z with true
    by (symmetry; apply Z.leb_le; lia).
  replace (Z.of_nat (List.length l) + -1 <? Z.of_nat (List.length l))%Z
    with true by (symmetry; apply Z.ltb_lt; lia).
  simpl andb. cbv iota.
  replace (Z.to_nat (Z.of_nat (List.length l) + -1))
    with (List.length l - 1)%nat by lia.
  now rewrite Hn.
Qed.

Lemma getitem_In l i x : getitem l i = Ok x -> In x l.
Proof.
  unfold getitem.
  destruct (_ && _); [|discriminate].
  destruct (nth_error l _) eqn:E; [|discriminate].
  intros H. injection H as <-. eapply nth_error_In; eassumption.
Qed.

End Getitem.

(** ** The cell computes the first maximum of the distances *)

Section CellFacts.

Local Open Scope float_scope.
Import FloatOrder.


Lemma cell_result st : snd (elbow_cell st) = select (n_est st) (val_mad st).
Proof.
  unfold elbow_cell, select, bind, eval, lookup, ret.
  destruct (slope_expr (n_est st) (val_mad st)) as [s|e]; simpl; [|reflexivity].
  destruct (intercept_expr (n_est st) (val_mad st) s) as [c|e]; simpl;
    [|reflexivity].
  destruct (best_n_expr (n_est st) (val_mad st) s c) as [k|e]; simpl;
    [|reflexivity].
  destruct (chosen_expr (n_est st) k) as [v|e]; reflexivity.
Qed.

Lemma cell_frame st :
  n_est (fst (elbow_cell st)) = n_est st /\
  val_mad (fst (elbow_cell st)) = val_mad st.
Proof.
  unfold elbow_cell, bind, eval, lookup, ret.
  destruct (slope_expr (n_est st) (val_mad st)) as [s|e]; simpl; [|auto].
  destruct (intercept_expr (n_est st) (val_mad st) s) as [c|e]; simpl; [|auto].
  destruct (best_n_expr (n_est st) (val_mad st) s c) as [k|e]; simpl; [|auto].
  destruct (chosen_expr (n_est st) k) as [v|e]; simpl; auto.
Qed.

Lemma selector_select ns es : selector ns es = select ns es.
Proof. unfold selector. now rewrite cell_result. Qed.

(** Multiplication of binary64 numbers commutes, so [p * slope] of the
    code is [slope * p] of the specification. *)
Lemma SFmul_comm x y : SF64mul x y = SF64mul y x.
Proof.
  unfold SF64mul, SFmul.
  destruct x as [[]|[]| |[] mx ex], y as [[]|[]| |[] my ey]; simpl;
    try reflexivity; now rewrite Pos.mul_comm, Z.add_comm.
Qed.

Lemma mul_comm x y : x * y = y * x.
Proof. apply Prim2SF_inj. rewrite !mul_spec. apply SFmul_comm. Qed.

Lemma zip_sub_combine {X} (f : X -> float) (xs : list X) (es : list float) :
  np.zip_sub (map f xs) es =
  map (fun pe => f (fst pe) - snd pe) (combine xs es).
Proof.
  revert es. induction xs as [|x xs IH]; intros [|e es]; simpl;
    try reflexivity. now rewrite IH.
Qed.

Lemma slope_expr_chord ns es :
  np.is_numeric ns = true ->
  ns <> [] -> es <> [] -> slope_expr ns es = Ok (chord_slope ns es).
Proof.
  intros Hnum Hn He. unfold slope_expr, chord_slope.
  rewrite (getitem_last es 0 He), (getitem_first es 0 He).
  rewrite (getitem_last ns 0%Z Hn), (getitem_first ns 0%Z Hn).
  cbn [rbind]. rewrite (numeric_range_converts ns Hnum Hn). reflexivity.
Qed.

Lemma intercept_expr_chord ns es :
  np.is_numeric ns = true ->
  ns <> [] -> es <> [] ->
  intercept_expr ns es (chord_slope ns es) = Ok (chord_intercept ns es).
Proof.
  intros Hnum Hn He. unfold intercept_expr, chord_intercept.
  rewrite (getitem_first es 0 He), (getitem_first ns 0%Z Hn).
  cbn [rbind]. rewrite (numeric_converts ns _ Hnum (hd_In ns 0%Z Hn)).
  reflexivity.
Qed.

Lemma best_n_expr_numeric ns es s c :
  np.is_numeric ns = true ->
  best_n_expr ns es s c = rbind (dist_expr ns es s c) np.argmax.
Proof. intros H. unfold best_n_expr. now rewrite H. Qed.

Lemma line_expr_chord ns es :
  line_expr ns (chord_slope ns es) (chord_intercept ns es) = line_values ns es.
Proof.
  unfold line_expr, line_values, np.add_scalar, np.mul_scalar.
  rewrite map_map. apply map_ext. intros p. now rewrite mul_comm.
Qed.

Lemma dist_expr_chord ns es :
  List.length ns = List.length es ->
  dist_expr ns es (chord_slope ns es) (chord_intercept ns es) =
  Ok (distances ns es).
Proof.
  intros Hlen. unfold dist_expr, np.sub.
  rewrite line_expr_chord. unfold line_values.
  rewrite length_map, Hlen, Nat.eqb_refl.
  now rewrite zip_sub_combine.
Qed.

Lemma distances_length ns es :
  List.length ns = List.length es ->
  List.length (distances ns es) = List.length ns.
Proof.
  intros H. unfold distances. rewrite length_map, length_combine. lia.
Qed.

Lemma distances_nth ns es j p e :
  nth_error ns j = Some p -> nth_error es j = Some e ->
  nth_error (distances ns es) j = Some (below_line ns es p e).
Proof.
  intros Hp He. unfold distances.
  rewrite nth_error_map.
  assert (H : nth_error (combine ns es) j = Some (p, e)).
  { revert es j Hp He. induction ns as [|q ns IH]; intros [|f es] [|j];
      simpl; intros; try discriminate; try congruence. now apply IH. }
  now rewrite H.
Qed.

Lemma select_argmax ns es :
  np.is_numeric ns = true ->
  ns <> [] -> List.length ns = List.length es ->
  select ns es = rbind (np.argmax (distances ns es))
                       (fun k => getitem ns (Z.of_nat k)).
Proof.
  intros Hnum Hn Hlen.
  assert (He : es <> []) by (destruct ns, es; simpl in *; congruence).
  unfold select. rewrite (slope_expr_chord ns es Hnum Hn He). cbn [rbind].
  rewrite (intercept_expr_chord ns es Hnum Hn He). cbn [rbind].
  rewrite (best_n_expr_numeric _ _ _ _ Hnum), (dist_expr_chord _ _ Hlen).
  reflexivity.
Qed.

(** Every non-empty numeric sweep of matching lengths yields the
    parameter at the first maximum of the distances. *)
Theorem selector_first_max ns es :
  np.is_numeric ns = true ->
  ns <> [] -> List.length ns = List.length es ->
  exists k pk dk,
    np.argmax (distances ns es) = Ok k /\
    first_max (distances ns es) k dk /\
    nth_error ns k = Some pk /\
    selector ns es = Ok pk.
Proof.
  intros Hnum Hn Hlen.
  assert (Hd : distances ns es <> []).
  { intros E. apply (f_equal (@List.length _)) in E.
    rewrite (distances_length _ _ Hlen) in E.
    destruct ns; [congruence | discriminate]. }
  destruct (argmax_nonempty _ Hd) as [k Hk].
  destruct (argmax_first_max _ _ Hk) as [dk Hfm].
  pose proof (first_max_lt _ _ _ Hfm) as Hlt.
  rewrite (distances_length _ _ Hlen) in Hlt.
  destruct (nth_error ns k) as [pk|] eqn:Hpk;
    [|apply nth_error_None in Hpk; lia].
  exists k, pk, dk.
  split; [exact Hk | split; [exact Hfm | split; [exact Hpk|]]].
  rewrite selector_select, (select_argmax ns es Hnum Hn Hlen), Hk. simpl.
  now apply getitem_nth.
Qed.

End CellFacts.


(** ** The namespace after the cell, and special sweeps *)

Section MoreCellFacts.

Local Open Scope float_scope.
Import FloatOrder.

Lemma cell_run st s c k v :
  slope_expr (n_est st) (val_mad st) = Ok s ->
  intercept_expr (n_est st) (val_mad st) s = Ok c ->
  best_n_expr (n_est st) (val_mad st) s c = Ok k ->
  chosen_expr (n_est st) k = Ok v ->
  elbow_cell st =
  (mkNamespace (n_est st) (val_mad st) (Some s) (Some c) (Some k)
     (stdout st ++ [("The best value of n is " ++ format_int v ++ ".")%string]),
   Ok v).
Proof.
  intros Hs Hc Hk Hv.
  unfold elbow_cell, bind, eval, lookup, ret, set_slope, set_intercept,
    set_best_n, print.
  rewrite Hs. simpl. rewrite Hc. simpl. rewrite Hk. simpl. rewrite Hv.
  reflexivity.
Qed.

Lemma distances_nth_inv ns es j dj :
  nth_error (distances ns es) j = Some dj ->
  exists pj ej, nth_error ns j = Some pj /\ nth_error es j = Some ej /\
                dj = below_line ns es pj ej.
Proof.
  unfold distances. generalize (below_line ns es) as f. intros f.
  revert es j. induction ns as [|p ns IH]; intros [|e es] [|j]; simpl;
    try discriminate.
  - intros H. injection H as <-. eauto.
  - intros H. apply IH in H. exact H.
Qed.

(** A maximum that is reached at index 0 is the one [argmax] returns. *)
Lemma first_max_head d k dk d0 :
  first_max d k dk -> nth_error d 0 = Some d0 ->
  (forall i di, nth_error d i = Some di -> (di <=? d0) = true) ->
  k = 0%nat.
Proof.
  intros Hfm H0 Hall.
  pose proof (first_max_least d k dk 0 d0 Hfm H0 Hall). lia.
Qed.

(** Numbers that are equal in the binary64 order are bounded by each
    other. *)
Lemma all_equal_bounded (xs : list float) (z : float) :
  (forall i x, nth_error xs i = Some x -> (x =? z) = true) ->
  forall i j x y, nth_error xs i = Some x -> nth_error xs j = Some y ->
                  (x <=? y) = true.
Proof.
  intros H i j x y Hx Hy.
  destruct (eqb_leb _ _ (H _ _ Hx)) as [Hxz _].
  destruct (eqb_leb _ _ (H _ _ Hy)) as [_ Hzy].
  exact (leb_trans _ _ _ Hxz Hzy).
Qed.

(** Division by the float of a zero integer range: the quotient is an
    infinity or a NaN, and the first distance it leads to is a NaN. *)
Lemma float_of_int_0 : float_of_int 0 = zero.
Proof. reflexivity. Qed.

Lemma degenerate_distance_nan (a e1 P : float) :
  is_nan ((a / zero * P + (e1 - a / zero * P)) - e1) = true.
Proof.
  rewrite is_nan_spec.
  rewrite !sub_spec, add_spec, sub_spec, !mul_spec, !div_spec.
  change (Prim2SF zero) with (S754_zero false).
  destruct (Prim2SF a) as [[]|[]| |[] ma xa];
    destruct (Prim2SF e1) as [[]|[]| |[] me xe];
    destruct (Prim2SF P) as [[]|[]| |[] mp xp]; reflexivity.
Qed.

Lemma degenerate_first_distance ns es p0 e0 ns' es' :
  ns = p0 :: ns' -> es = e0 :: es' -> last ns 0%Z = hd 0%Z ns ->
  exists rest, distances ns es = below_line ns es p0 e0 :: rest /\
               is_nan (below_line ns es p0 e0) = true.
Proof.
  intros -> -> Hdeg. eexists. split; [reflexivity|].
  unfold below_line, line_at, chord_intercept, chord_slope.
  rewrite Hdeg. simpl hd. rewrite Z.sub_diag, float_of_int_0.
  apply degenerate_distance_nan.
Qed.

(** [argmax] depends on its array only through the order of the
    elements. *)
Lemma first_max_transfer d d' k dk :
  List.length d = List.length d' ->
  (forall i j di dj di' dj',
     nth_error d i = Some di -> nth_error d j = Some dj ->
     nth_error d' i = Some di' -> nth_error d' j = Some dj' ->
     (di' <=? dj') = (di <=? dj)) ->
  first_max d k dk -> exists dk', first_max d' k dk'.
Proof.
  intros Hlen Hord Hfm.
  assert (Hget : forall j dj, nth_error d' j = Some dj ->
                              exists x, nth_error d j = Some x).
  { intros j dj Hj. destruct (nth_error d j) as [x|] eqn:E; [eauto|].
    apply nth_error_None in E.
    assert (j < List.length d')%nat by (apply nth_error_Some; congruence).
    lia. }
  destruct (nth_error d' k) as [dk'|] eqn:Hk'.
  2:{ apply nth_error_None in Hk'.
      pose proof (first_max_lt _ _ _ Hfm). lia. }
  exists dk'. constructor; [assumption| |].
  - intros j dj' Hlt Hj'.
    destruct (Hget _ _ Hj') as [dj Hj].
    destruct (fm_before Hfm _ _ Hlt Hj) as [Hn Hno].
    split.
    + rewrite is_nan_leb, (Hord j j dj dj dj' dj' Hj Hj Hj' Hj').
      now rewrite <- is_nan_leb.
    + now rewrite (Hord k j dk dj dk' dj' (fm_at Hfm) Hj Hk' Hj').
  - destruct (fm_all Hfm) as [Hn|Hall].
    + left. rewrite is_nan_leb,
        (Hord k k dk dk dk' dk' (fm_at Hfm) (fm_at Hfm) Hk' Hk').
      now rewrite <- is_nan_leb.
    + right. intros j dj' Hj'.
      destruct (Hget _ _ Hj') as [dj Hj].
      rewrite (Hord j k dj dk dj' dk' Hj (fm_at Hfm) Hj' Hk'). eauto.
Qed.



Lemma all_finite_nth es j e :
  all_finite es = true -> nth_error es j = Some e -> is_finite e = true.
Proof.
  unfold all_finite. rewrite forallb_forall. intros H Hj.
  apply H. eapply nth_error_In; eassumption.
Qed.

Lemma valid_sweep_parts ns es :
  valid_sweep ns es = true ->
  strictly_increasing ns = true /\ (2 <= List.length ns)%nat /\
  last ns 0%Z <> hd 0%Z ns /\ List.length es = List.length ns /\
  all_finite es = true.
Proof.
  unfold valid_sweep. rewrite !andb_true_iff, negb_true_iff.
  intros [[[[H1 H2] H3] H4] H5].
  apply Nat.leb_le in H2. apply Z.eqb_neq in H3. apply Nat.eqb_eq in H4.
  auto.
Qed.

(** With a finite slope and intercept the distance of a point with a
    finite parameter and error is not a NaN. *)
Lemma below_line_not_nan ns es p e :
  ffin (chord_slope ns es) = true -> ffin (chord_intercept ns es) = true ->
  ffin (float_of_int p) = true -> ffin e = true ->
  is_nan (below_line ns es p e) = false.
Proof.
  intros Fs Fc Fp Fe. unfold below_line, line_at.
  apply sub_not_nan; [|assumption].
  apply add_not_nan; [|assumption].
  now apply mul_not_nan.
Qed.

End MoreCellFacts.

(** ** Shifts of the errors that are not rounded *)

Section ExactShift.

Local Open Scope float_scope.
Import FloatOrder Rounding.

Lemma same_number_fin x y :
  same_number x y -> ffin x = ffin y /\ fval x = fval y.
Proof.
  unfold same_number, ffin, fval.
  destruct (Prim2SF x) as [[]|[]| |[] ? ?], (Prim2SF y) as [[]|[]| |[] ? ?];
    simpl; intros H; try discriminate; try (injection H as <- <-); auto.
Qed.

Lemma same_number_leb x y x' y' :
  same_number x' x -> same_number y' y -> (x' <=? y') = (x <=? y).
Proof.
  unfold same_number. intros Hx Hy. rewrite !FloatAxioms.leb_spec.
  rewrite (SFleb_unsign (Prim2SF x')), (SFleb_unsign (Prim2SF x)).
  now rewrite Hx, Hy.
Qed.

Lemma unsign_cases X X' :
  unsign X = unsign X' ->
  X = X' \/ exists s s', X = S754_zero s /\ X' = S754_zero s'.
Proof.
  destruct X as [s| | |], X' as [s'| | |]; simpl; intros H;
    try discriminate; try (left; exact H); right; eauto.
Qed.

Lemma same_number_div x x' r :
  same_number x' x -> same_number (x' / r) (x / r).
Proof.
  unfold same_number. rewrite !div_spec. intros H.
  destruct (unsign_cases _ _ H) as [->|(s & s' & -> & ->)]; [reflexivity|].
  destruct (Prim2SF r) as [[]|[]| |[] ? ?]; destruct s, s'; reflexivity.
Qed.

Lemma same_number_mul x x' p :
  same_number x' x -> same_number (x' * p) (x * p).
Proof.
  unfold same_number. rewrite !mul_spec. intros H.
  destruct (unsign_cases _ _ H) as [->|(s & s' & -> & ->)]; [reflexivity|].
  destruct (Prim2SF p) as [[]|[]| |[] ? ?]; destruct s, s'; reflexivity.
Qed.

(** Differences of finite numbers depend on the operands through the
    difference of their values only. *)
Lemma same_number_sub a b a' b' :
  ffin a = true -> ffin b = true -> ffin a' = true -> ffin b' = true ->
  (fval a' - fval b' = fval a - fval b)%Z ->
  same_number (a' - b') (a - b).
Proof.
  unfold ffin, fval, same_number. intros Fa Fb Fa' Fb' H.
  rewrite !sub_spec.
  rewrite (SFsub_val _ _ Fa' Fb' (Prim2SF_valid a') (Prim2SF_valid b')).
  rewrite (SFsub_val _ _ Fa Fb (Prim2SF_valid a) (Prim2SF_valid b)).
  now rewrite H.
Qed.

Lemma exact_add_spec x y :
  exact_add x y = true ->
  ffin x = true /\ ffin y = true /\ ffin (x + y) = true /\
  (fval (x + y) = fval x + fval y)%Z.
Proof.
  unfold exact_add. intros H. apply andb_true_iff in H.
  destruct H as [F E]. apply Z.eqb_eq in E.
  destruct (add_fin_inv _ _ F). auto.
Qed.

Lemma sub_fin_inv a b : ffin (a - b) = true -> ffin a = true /\ ffin b = true.
Proof.
  unfold ffin. rewrite sub_spec.
  destruct (Prim2SF a) as [[]|[]| |[] ? ?], (Prim2SF b) as [[]|[]| |[] ? ?];
    simpl; auto.
Qed.

Lemma exact_sub_spec x y :
  exact_sub x y = true ->
  ffin x = true /\ ffin y = true /\ ffin (x - y) = true /\
  (fval (x - y) = fval x - fval y)%Z.
Proof.
  unfold exact_sub. intros H. apply andb_true_iff in H.
  destruct H as [F E]. apply Z.eqb_eq in E.
  destruct (sub_fin_inv _ _ F). auto.
Qed.

Lemma hd_map (f : float -> float) es : es <> [] -> hd 0 (map f es) = f (hd 0 es).
Proof. destruct es; [congruence | reflexivity]. Qed.

Lemma last_map (f : float -> float) es :
  es <> [] -> last (map f es) 0 = f (last es 0).
Proof.
  induction es as [|e es IH]; [congruence|]. intros _.
  destruct es as [|e' es]; [reflexivity|].
  change (last (map f (e :: e' :: es)) 0) with (last (map f (e' :: es)) 0).
  change (last (e :: e' :: es) 0) with (last (e' :: es) 0).
  apply IH. discriminate.
Qed.

(** When neither the shift nor the additions of the two lines are
    rounded, the shifted line is the line shifted, and every distance is
    the same number as before. *)
Lemma exact_shift_distance ns es c :
  ns <> [] -> es <> [] ->
  exact_shift es c = true ->
  exact_line ns es = true ->
  exact_line ns (map (fun e => e + c) es) = true ->
  forall p e, In p ns -> In e es ->
    same_number (below_line ns (map (fun e => e + c) es) p (e + c))
                (below_line ns es p e).
Proof.
  intros Hn He Hshift Hline Hline' p e Hp Hin.
  set (es' := map (fun e => e + c) es) in *.
  unfold exact_shift in Hshift. rewrite forallb_forall in Hshift.
  assert (Hsh : forall x, In x es ->
            ffin x = true /\ ffin (x + c) = true /\
            (fval (x + c) = fval x + fval c)%Z).
  { intros x Hx. destruct (exact_add_spec _ _ (Hshift x Hx)) as (A & _ & B & C).
    auto. }
  assert (Hl : In (last es 0) es).
  { clear -He. induction es as [|x es IH]; [congruence|].
    destruct es as [|y es]; [now left | right; apply IH; discriminate]. }
  assert (Hh : In (hd 0 es) es) by (destruct es; [congruence | now left]).
  destruct (Hsh _ Hl) as (Fl & Fl' & Vl).
  destruct (Hsh _ Hh) as (Fh & Fh' & Vh).
  destruct (Hsh _ Hin) as (Fe & Fe' & Ve).
  (* the slope *)
  assert (HS : same_number (chord_slope ns es') (chord_slope ns es)).
  { unfold chord_slope, es'. rewrite (hd_map _ es He), (last_map _ es He).
    apply same_number_div. apply same_number_sub; auto. lia. }
  (* the intercept *)
  unfold exact_line in Hline, Hline'.
  apply andb_true_iff in Hline. destruct Hline as [HB HL].
  apply andb_true_iff in Hline'. destruct Hline' as [HB' HL'].
  rewrite forallb_forall in HL, HL'.
  destruct (exact_sub_spec _ _ HB) as (_ & FT & FB & VB).
  destruct (exact_sub_spec _ _ HB') as (_ & FT' & FB' & VB').
  fold (chord_intercept ns es) in FB, VB.
  fold (chord_intercept ns es') in FB', VB'.
  destruct (same_number_fin _ _
              (same_number_mul _ _ (float_of_int (hd 0%Z ns)) HS)) as [_ VT].
  assert (VBB : (fval (chord_intercept ns es')
                 = fval (chord_intercept ns es) + fval c)%Z).
  { rewrite VB', VB, VT. unfold es'. rewrite (hd_map _ es He). lia. }
  (* the line value at [p] *)
  destruct (exact_add_spec _ _ (HL p Hp)) as (_ & _ & FL & VL).
  destruct (exact_add_spec _ _ (HL' p Hp)) as (_ & _ & FL' & VL').
  fold (line_at ns es p) in FL, VL. fold (line_at ns es' p) in FL', VL'.
  destruct (same_number_fin _ _
              (same_number_mul _ _ (float_of_int p) HS)) as [_ VM].
  unfold below_line. apply same_number_sub; auto.
  rewrite VL', VL, VM, VBB, Ve. lia.
Qed.

End ExactShift.

Section Claims.

Local Open Scope float_scope.
Import FloatOrder.

Lemma valid_sweep_shape ns es :
  valid_sweep ns es = true ->
  ns <> [] /\ List.length ns = List.length es.
Proof.
  unfold valid_sweep. rewrite !andb_true_iff.
  intros [[[[_ Hlen] _] Heq] _].
  apply Nat.leb_le in Hlen. apply Nat.eqb_eq in Heq.
  split; [destruct ns; [simpl in Hlen; lia | discriminate] | congruence].
Qed.

Lemma nth_error_both ns es j (p : Z) :
  List.length ns = List.length es -> nth_error ns j = Some p ->
  exists e : float, nth_error es j = Some e.
Proof.
  intros Hlen Hp. destruct (nth_error es j) as [e|] eqn:E; [eauto|].
  apply nth_error_None in E.
  assert (j < List.length ns)%nat by (apply nth_error_Some; congruence). lia.
Qed.

(** C2: on parameters [1,2,3,4,5] and errors [10,8,3,7,9] the cell
    selects 3; the slope is -0.25, the line values are
    [10, 9.75, 9.5, 9.25, 9] and the distances below the line are
    [0, 1.75, 6.5, 2.25, 0]. *)
Theorem elbow_example :
  let ns := [1; 2; 3; 4; 5]%Z in
  let es := [10; 8; 3; 7; 9] in
  selector ns es = Ok 3%Z /\
  slope (fst (elbow_cell (fresh ns es))) = Some (-0.25) /\
  intercept (fst (elbow_cell (fresh ns es))) = Some 10.25 /\
  chord_slope ns es = -0.25 /\
  line_expr ns (-0.25) 10.25 = [10; 9.75; 9.5; 9.25; 9] /\
  line_values ns es = [10; 9.75; 9.5; 9.25; 9] /\
  dist_expr ns es (-0.25) 10.25 = Ok [0; 1.75; 6.5; 2.25; 0] /\
  distances ns es = [0; 1.75; 6.5; 2.25; 0].
Proof. vm_compute. repeat split. Qed.

(** Finite errors do not exclude NaN distances: on the sweep below the
    difference of the two errors overflows, the slope is infinite and both
    distances are NaN; [argmax] then returns index 0. *)
Remark overflow_gives_nan_distances :
  let ns := [1; 2]%Z in
  let es := [-0x1p1023; 0x1p1023] in
  valid_sweep ns es = true /\
  chord_slope ns es = infinity /\
  distances ns es = [nan; nan] /\
  selector ns es = Ok 1%Z.
Proof. vm_compute. repeat split. Qed.

(** C1, as stated, fails.  On the first sweep below, which is valid, the
    intercept overflows to an infinity, the distances are an infinity and
    a NaN, and [argmax] returns the index of the NaN: parameter value 2 is
    selected although the distance of 1 is the greater one.  On the second,
    also valid, the range [2^1024] of the parameter values does not
    convert to a float and the cell raises instead of returning a
    parameter value. *)
Lemma maximum_not_selected :
  (let ns := [1; 2]%Z in
   let es := [0x1.ap1023; 0] in
   valid_sweep ns es = true /\ np.is_numeric ns = true /\
   chord_intercept ns es = infinity /\
   distances ns es = [infinity; nan] /\
   selector ns es = Ok 2%Z) /\
  (let ns := [0; 1; 2 ^ 1024]%Z in
   let es := [3; 1; 2] in
   valid_sweep ns es = true /\ selector ns es = Raise OverflowError).
Proof. vm_compute. repeat split. Qed.

(** C1, amended: on a valid sweep whose parameter values fit in 64 bits
    and whose slope and intercept are finite, the selector returns the
    parameter value [p_k] whose distance
    [(slope * p_k + intercept) - e_k] is maximal, where
    [slope = (e_n - e_1) / (p_n - p_1)] and
    [intercept = e_1 - slope * p_1]: every distance is below or equal to
    that of [p_k]. *)
Theorem selector_maximizes ns es :
  valid_sweep ns es = true -> np.is_numeric ns = true ->
  is_finite (chord_slope ns es) = true ->
  is_finite (chord_intercept ns es) = true ->
  exists k pk ek,
    nth_error ns k = Some pk /\ nth_error es k = Some ek /\
    selector ns es = Ok pk /\
    forall j pj ej,
      nth_error ns j = Some pj -> nth_error es j = Some ej ->
      (below_line ns es pj ej <=? below_line ns es pk ek) = true.
Proof.
  intros Hv Hnum Fs Fc. destruct (valid_sweep_shape _ _ Hv) as [Hn Hlen].
  destruct (valid_sweep_parts _ _ Hv) as (_ & _ & _ & _ & Hfin).
  destruct (selector_first_max ns es Hnum Hn Hlen)
    as (k & pk & dk & _ & Hfm & Hpk & Hsel).
  destruct (nth_error_both ns es k pk Hlen Hpk) as [ek Hek].
  pose proof (distances_nth ns es k pk ek Hpk Hek) as Hdk.
  rewrite (fm_at Hfm) in Hdk. injection Hdk as ->.
  exists k, pk, ek. repeat (split; [assumption|]).
  intros j pj ej Hpj Hej.
  pose proof (distances_nth ns es j pj ej Hpj Hej) as Hdj.
  assert (Hnan : is_nan (below_line ns es pk ek) = false).
  { apply below_line_not_nan; try now apply is_finite_ffin.
    - apply (numeric_finite ns); [assumption|].
      eapply nth_error_In; eassumption.
    - apply is_finite_ffin. eapply all_finite_nth; eassumption. }
  eapply first_max_upper; eassumption.
Qed.

Lemma selector_maximizes_witness :
  exists k pk ek,
    nth_error [1; 2; 3; 4; 5]%Z k = Some pk /\
    nth_error [10; 8; 3; 7; 9] k = Some ek /\
    selector [1; 2; 3; 4; 5]%Z [10; 8; 3; 7; 9] = Ok pk /\
    forall j pj ej,
      nth_error [1; 2; 3; 4; 5]%Z j = Some pj ->
      nth_error [10; 8; 3; 7; 9] j = Some ej ->
      (below_line [1; 2; 3; 4; 5]%Z [10; 8; 3; 7; 9] pj ej
       <=? below_line [1; 2; 3; 4; 5]%Z [10; 8; 3; 7; 9] pk ek) = true.
Proof.
  apply (selector_maximizes [1; 2; 3; 4; 5]%Z [10; 8; 3; 7; 9]); reflexivity.
Defined.




(** C4, as stated, fails: on the valid sweep below the cell returns no
    parameter value at all; the divisor [2^1024] of the slope does not
    convert to a float and the first statement raises. *)
Lemma overflowing_range_rejected :
  let ns := [0; 1; 2 ^ 1024]%Z in
  let es := [3; 1; 2] in
  valid_sweep ns es = true /\ selector ns es = Raise OverflowError /\
  forall v, In v ns -> selector ns es <> Ok v.
Proof.
  vm_compute. repeat split. intros v _ H. discriminate.
Qed.

(** C4, amended: on a valid sweep whose parameter values fit in 64 bits
    the value the selector returns is one of the parameter values of the
    sweep. *)
Theorem selector_in_sweep ns es :
  valid_sweep ns es = true -> np.is_numeric ns = true ->
  exists v, selector ns es = Ok v /\ In v ns.
Proof.
  intros Hv Hnum. destruct (valid_sweep_shape _ _ Hv) as [Hn Hlen].
  destruct (selector_first_max ns es Hnum Hn Hlen)
    as (k & pk & dk & _ & _ & Hpk & Hsel).
  exists pk. split; [assumption|]. eapply nth_error_In; eassumption.
Qed.

Lemma selector_in_sweep_witness :
  exists v, selector [1; 2; 3; 4; 5]%Z [10; 8; 3; 7; 9] = Ok v /\
            In v [1; 2; 3; 4; 5]%Z.
Proof.
  apply (selector_in_sweep [1; 2; 3; 4; 5]%Z [10; 8; 3; 7; 9]);
    reflexivity.
Defined.

(** C10, as stated, fails: the sweep below has two points, a non-zero
    range and finite errors, and the cell fails on it, before any
    [argmax], when the range [2^1024] is converted for the division. *)
Lemma in_bounds_needs_conversion :
  let ns := [5; 2 ^ 1024 + 5]%Z in
  let es := [1; 2] in
  (2 <= List.length ns)%nat /\ List.length es = List.length ns /\
  last ns 0%Z <> hd 0%Z ns /\ all_finite es = true /\
  selector ns es = Raise OverflowError /\
  best_n (fst (elbow_cell (fresh ns es))) = None.
Proof. vm_compute. repeat split; [lia | discriminate]. Qed.

(** C10, amended: on every input with at least two points, parameter
    values that fit in 64 bits, a non-zero parameter range and finite
    errors, [argmax] of the distances yields an index [k] below the
    length of the sweep, the cell binds [best_n] to it, the lookup
    [n_est[best_n]] succeeds and the cell does not fail. *)
Theorem best_n_in_bounds ns es :
  (2 <= List.length ns)%nat -> List.length es = List.length ns ->
  np.is_numeric ns = true ->
  last ns 0%Z <> hd 0%Z ns -> all_finite es = true ->
  exists k v,
    np.argmax (distances ns es) = Ok k /\
    best_n (fst (elbow_cell (fresh ns es))) = Some k /\
    (k < List.length ns)%nat /\
    getitem ns (Z.of_nat k) = Ok v /\
    selector ns es = Ok v.
Proof.
  intros Hlen2 Hlen' Hnum _ _.
  assert (Hn : ns <> []) by (destruct ns; [simpl in Hlen2; lia | discriminate]).
  assert (Hlen : List.length ns = List.length es) by congruence.
  assert (He : es <> []) by (destruct ns, es; simpl in *; congruence).
  destruct (selector_first_max ns es Hnum Hn Hlen)
    as (k & pk & dk & Hk & Hfm & Hpk & Hsel).
  exists k, pk.
  pose proof (getitem_nth ns k pk Hpk) as Hget.
  repeat split; try assumption.
  - rewrite (cell_run (fresh ns es) (chord_slope ns es)
               (chord_intercept ns es) k pk); simpl; auto.
    + now apply slope_expr_chord.
    + now apply intercept_expr_chord.
    + rewrite (best_n_expr_numeric _ _ _ _ Hnum), (dist_expr_chord _ _ Hlen).
      exact Hk.
  - apply nth_error_Some. congruence.
Qed.

Lemma best_n_in_bounds_witness :
  exists k v,
    np.argmax (distances [1; 2; 3; 4; 5]%Z [10; 8; 3; 7; 9]) = Ok k /\
    best_n (fst (elbow_cell (fresh [1; 2; 3; 4; 5]%Z [10; 8; 3; 7; 9])))
      = Some k /\
    (k < 5)%nat /\
    getitem [1; 2; 3; 4; 5]%Z (Z.of_nat k) = Ok v /\
    selector [1; 2; 3; 4; 5]%Z [10; 8; 3; 7; 9] = Ok v.
Proof.
  apply (best_n_in_bounds [1; 2; 3; 4; 5]%Z [10; 8; 3; 7; 9]);
    [simpl; lia | reflexivity | reflexivity | discriminate | reflexivity].
Defined.

(** C8, as stated, fails: the cell is not free of side effects.  Run in
    a namespace that binds only the two lists, it prints a line and
    leaves [slope], [intercept] and [best_n] bound. *)
Lemma cell_has_side_effects :
  let st := fresh [1; 2; 3; 4; 5]%Z [10; 8; 3; 7; 9] in
  elbow_cell st =
  (mkNamespace [1; 2; 3; 4; 5]%Z [10; 8; 3; 7; 9]
     (Some (-0.25)) (Some 10.25) (Some 2%nat)
     ["The best value of n is 3."%string],
   Ok 3%Z) /\
  fst (elbow_cell st) <> st.
Proof.
  split; [vm_compute; reflexivity|].
  intros H. apply (f_equal stdout) in H. vm_compute in H. discriminate.
Qed.

(** C8, amended: the cell leaves both sweep lists as they were and its
    value is the selector applied to those two lists, whatever else the
    namespace holds.  Its side effects are these: a run that succeeds
    binds [slope], [intercept] and [best_n] and prints one line; a run
    that fails prints nothing. *)
Theorem cell_effects st :
  n_est (fst (elbow_cell st)) = n_est st /\
  val_mad (fst (elbow_cell st)) = val_mad st /\
  snd (elbow_cell st) = selector (n_est st) (val_mad st) /\
  (forall v, snd (elbow_cell st) = Ok v ->
     exists s c k,
       fst (elbow_cell st) =
       mkNamespace (n_est st) (val_mad st) (Some s) (Some c) (Some k)
         (stdout st
          ++ [("The best value of n is " ++ format_int v ++ ".")%string])) /\
  (forall e, snd (elbow_cell st) = Raise e ->
     stdout (fst (elbow_cell st)) = stdout st).
Proof.
  destruct (cell_frame st) as [Hn He].
  split; [assumption|]. split; [assumption|].
  split; [now rewrite cell_result, selector_select|].
  destruct (slope_expr (n_est st) (val_mad st)) as [s|e1] eqn:Hs.
  2:{ unfold elbow_cell, bind, eval. rewrite Hs. simpl.
      split; [discriminate | reflexivity]. }
  destruct (intercept_expr (n_est st) (val_mad st) s) as [c|e2] eqn:Hc.
  2:{ unfold elbow_cell, bind, eval, lookup, set_slope. rewrite Hs. simpl.
      rewrite Hc. simpl. split; [discriminate | reflexivity]. }
  destruct (best_n_expr (n_est st) (val_mad st) s c) as [k|e3] eqn:Hk.
  2:{ unfold elbow_cell, bind, eval, lookup, set_slope, set_intercept.
      rewrite Hs. simpl. rewrite Hc. simpl. rewrite Hk. simpl.
      split; [discriminate | reflexivity]. }
  destruct (chosen_expr (n_est st) k) as [v|e4] eqn:Hv.
  - rewrite (cell_run st s c k v Hs Hc Hk Hv). simpl. split.
    + intros v' Hv'. injection Hv' as <-. exists s, c, k. reflexivity.
    + discriminate.
  - unfold elbow_cell, bind, eval, lookup, set_slope, set_intercept,
      set_best_n.
    rewrite Hs. simpl. rewrite Hc. simpl. rewrite Hk. simpl. rewrite Hv.
    simpl. split; [discriminate | reflexivity].
Qed.

(** C6, as stated, fails: a single-point sweep, a sweep whose
    parameters decrease and a sweep with a NaN or an infinite error are
    all accepted, and a parameter value is returned. *)
Lemma invalid_sweeps_accepted :
  ((List.length [7]%Z < 2)%nat /\ selector [7]%Z [0.5] = Ok 7%Z) /\
  (strictly_increasing [2; 1]%Z = false /\
   selector [2; 1]%Z [1; 2] = Ok 2%Z) /\
  (all_finite [nan; 1] = false /\ selector [1; 2]%Z [nan; 1] = Ok 1%Z) /\
  (all_finite [1; infinity] = false /\
   selector [1; 2]%Z [1; infinity] = Ok 1%Z).
Proof. vm_compute. repeat split; lia. Qed.

(** C6, amended: the cell validates nothing.  For lists of matching
    lengths whose parameter values fit in 64 bits it fails only on the
    empty sweep, with the [IndexError] of the first lookup; every
    non-empty sweep, whatever its order and its errors, yields one of its
    parameter values, and a single-point sweep yields its only one. *)
Theorem selector_fails_only_when_empty ns es :
  List.length ns = List.length es -> np.is_numeric ns = true ->
  (raises (selector ns es) <-> ns = []) /\
  (ns = [] -> selector ns es = Raise IndexError) /\
  (ns <> [] -> exists v, selector ns es = Ok v /\ In v ns) /\
  (forall p, ns = [p] -> selector ns es = Ok p).
Proof.
  intros Hlen Hnum.
  assert (Hin : ns <> [] -> exists v, selector ns es = Ok v /\ In v ns).
  { intros Hn.
    destruct (selector_first_max ns es Hnum Hn Hlen)
      as (k & pk & dk & _ & _ & Hpk & Hsel).
    exists pk. split; [assumption|]. eapply nth_error_In; eassumption. }
  assert (Hnil : ns = [] -> selector ns es = Raise IndexError).
  { intros ->. destruct es; [|discriminate].
    rewrite selector_select. unfold select, slope_expr.
    now rewrite getitem_nil. }
  repeat split.
  - intros [e He]. destruct ns as [|p ns']; [reflexivity|].
    destruct Hin as (v & Hv & _); [discriminate | congruence].
  - intros Hn. exists IndexError. auto.
  - exact Hnil.
  - exact Hin.
  - intros p ->. destruct Hin as (v & Hsel & [<-|[]]); [discriminate|].
    exact Hsel.
Qed.

Lemma selector_fails_only_when_empty_witness :
  (raises (selector [7]%Z [0.5]) <-> [7]%Z = []) /\
  ([7]%Z = [] -> selector [7]%Z [0.5] = Raise IndexError) /\
  ([7]%Z <> [] -> exists v, selector [7]%Z [0.5] = Ok v /\ In v [7]%Z) /\
  (forall p, [7]%Z = [p] -> selector [7]%Z [0.5] = Ok p).
Proof.
  apply (selector_fails_only_when_empty [7]%Z [0.5]); reflexivity.
Defined.

(** C7, as stated, fails: on the parameters [4,4] the division of the
    float64 scalar [val_mad[-1]-val_mad[0]] by the zero range raises
    nothing (it yields an infinity), and the cell returns 4. *)
Lemma degenerate_sweep_accepted :
  last [4; 4]%Z 0%Z = hd 0%Z [4; 4]%Z /\
  selector [4; 4]%Z [1; 2] = Ok 4%Z /\
  slope (fst (elbow_cell (fresh [4; 4]%Z [1; 2]))) = Some infinity.
Proof. vm_compute. repeat split. Qed.

Lemma div_zero_not_finite a : is_finite (a / zero) = false.
Proof.
  unfold is_finite, is_infinity.
  rewrite is_nan_spec, FloatAxioms.eqb_spec, abs_spec, div_spec.
  change (Prim2SF zero) with (S754_zero false).
  change (Prim2SF infinity) with (S754_infinity false).
  destruct (Prim2SF a) as [[]|[]| |[] ma xa]; reflexivity.
Qed.

(** C7, amended: when the first and the last parameter value are equal,
    on a non-empty sweep of matching lengths whose parameter values fit
    in 64 bits, the cell does not fail.  The slope it binds is the
    quotient by a float zero, hence an infinity or a NaN; the first
    distance is then a NaN, which [argmax] takes as the maximum, and the
    first parameter value is returned. *)
Theorem degenerate_sweep_returns_first ns es :
  ns <> [] -> List.length ns = List.length es ->
  np.is_numeric ns = true ->
  last ns 0%Z = hd 0%Z ns ->
  slope (fst (elbow_cell (fresh ns es))) = Some (chord_slope ns es) /\
  is_finite (chord_slope ns es) = false /\
  (exists d0, nth_error (distances ns es) 0 = Some d0 /\
              is_nan d0 = true) /\
  np.argmax (distances ns es) = Ok 0%nat /\
  selector ns es = Ok (hd 0%Z ns).
Proof.
  intros Hn Hlen Hnum Hdeg.
  destruct ns as [|p0 ns']; [congruence|].
  destruct es as [|e0 es']; [discriminate|].
  destruct (degenerate_first_distance (p0 :: ns') (e0 :: es') p0 e0 ns' es'
              eq_refl eq_refl Hdeg) as (rest & Hd & Hnan).
  assert (Harg : np.argmax (distances (p0 :: ns') (e0 :: es')) = Ok 0%nat).
  { rewrite Hd. simpl np.argmax. now rewrite Hnan. }
  assert (Hs : slope_expr (p0 :: ns') (e0 :: es')
               = Ok (chord_slope (p0 :: ns') (e0 :: es')))
    by (apply slope_expr_chord; [assumption | discriminate | discriminate]).
  assert (Hc : intercept_expr (p0 :: ns') (e0 :: es')
                 (chord_slope (p0 :: ns') (e0 :: es'))
               = Ok (chord_intercept (p0 :: ns') (e0 :: es')))
    by (apply intercept_expr_chord;
        [assumption | discriminate | discriminate]).
  assert (Hk : best_n_expr (p0 :: ns') (e0 :: es')
                 (chord_slope (p0 :: ns') (e0 :: es'))
                 (chord_intercept (p0 :: ns') (e0 :: es')) = Ok 0%nat)
    by (rewrite (best_n_expr_numeric _ _ _ _ Hnum),
          (dist_expr_chord _ _ Hlen); exact Harg).
  pose proof (cell_run (fresh (p0 :: ns') (e0 :: es')) _ _ _ p0 Hs Hc Hk
                eq_refl) as Hrun.
  split; [now rewrite Hrun|]. split.
  - unfold chord_slope. rewrite Hdeg, Z.sub_diag, float_of_int_0.
    apply div_zero_not_finite.
  - split; [rewrite Hd; simpl; eauto|]. split; [exact Harg|].
    unfold selector. now rewrite Hrun.
Qed.

Lemma degenerate_sweep_returns_first_witness :
  slope (fst (elbow_cell (fresh [4; 4]%Z [1; 2])))
  = Some (chord_slope [4; 4]%Z [1; 2]) /\
  is_finite (chord_slope [4; 4]%Z [1; 2]) = false /\
  (exists d0, nth_error (distances [4; 4]%Z [1; 2]) 0 = Some d0 /\
              is_nan d0 = true) /\
  np.argmax (distances [4; 4]%Z [1; 2]) = Ok 0%nat /\
  selector [4; 4]%Z [1; 2] = Ok (hd 0%Z [4; 4]%Z).
Proof.
  apply (degenerate_sweep_returns_first [4; 4]%Z [1; 2]);
    [discriminate | reflexivity | reflexivity | reflexivity].
Defined.

(** C9, as stated, fails: adding the finite constant 1e17 to the errors
    [10,8,3,7,9] rounds them to [1e17+16, 1e17, 1e17, 1e17, 1e17+16],
    and the selection moves from 3 to 2. *)
Lemma shift_changes_selection :
  let ns := [1; 2; 3; 4; 5]%Z in
  let es := [10; 8; 3; 7; 9] in
  let c := 1e17 in
  valid_sweep ns es = true /\ is_finite c = true /\
  valid_sweep ns (map (fun e => e + c) es) = true /\
  map (fun e => e + c - c) es = [16; 0; 0; 0; 16] /\
  distances ns (map (fun e => e + c) es) = [0; 16; 16; 16; 0] /\
  selector ns es = Ok 3%Z /\
  selector ns (map (fun e => e + c) es) = Ok 2%Z.
Proof. vm_compute. repeat split. Qed.

(** C9, amended: on a valid sweep whose parameter values fit in 64
    bits, adding a finite constant [c] to every error leaves the selected
    parameter value unchanged whenever no addition is rounded: neither
    the shifts [e_k + c], nor the additions that build the line, for the
    original and for the shifted errors.  The line of the shifted errors
    is then the line shifted by [c], and every distance is the same
    number as before. *)
Theorem shift_keeps_selection ns es c :
  valid_sweep ns es = true -> np.is_numeric ns = true ->
  is_finite c = true ->
  let es' := map (fun e => e + c) es in
  exact_shift es c = true ->
  exact_line ns es = true -> exact_line ns es' = true ->
  selector ns es' = selector ns es /\
  forall p e, In p ns -> In e es ->
    same_number (below_line ns es' p (e + c)) (below_line ns es p e).
Proof.
  intros Hv Hnum Hc es' Hshift Hline Hline'.
  destruct (valid_sweep_shape _ _ Hv) as [Hn Hlen].
  assert (He : es <> []) by (destruct ns, es; simpl in *; congruence).
  pose proof (exact_shift_distance ns es c Hn He Hshift Hline Hline') as Hd.
  split; [|exact Hd].
  assert (Hlen' : List.length ns = List.length es')
    by (unfold es'; now rewrite length_map).
  assert (Hes' : forall j e', nth_error es' j = Some e' ->
                   exists e, nth_error es j = Some e /\ e' = e + c).
  { intros j e' H. unfold es' in H. rewrite nth_error_map in H.
    destruct (nth_error es j) as [e|]; [|discriminate].
    injection H as <-. eauto. }
  destruct (selector_first_max ns es Hnum Hn Hlen)
    as (k & pk & dk & _ & Hfm & Hpk & Hsel).
  destruct (selector_first_max ns es' Hnum Hn Hlen')
    as (k' & pk' & dk' & _ & Hfm' & Hpk' & Hsel').
  destruct (first_max_transfer (distances ns es) (distances ns es') k dk)
    as [dk2 Hfm2]; [| |exact Hfm|].
  - now rewrite !distances_length.
  - intros i j di dj di' dj' Hi Hj Hi' Hj'.
    destruct (distances_nth_inv _ _ _ _ Hi) as (pi & ei & Hpi & Hei & ->).
    destruct (distances_nth_inv _ _ _ _ Hj) as (pj & ej & Hpj & Hej & ->).
    destruct (distances_nth_inv _ _ _ _ Hi') as (pi' & ei' & Hpi' & Hei' & ->).
    destruct (distances_nth_inv _ _ _ _ Hj') as (pj' & ej' & Hpj' & Hej' & ->).
    destruct (Hes' _ _ Hei') as (ei2 & Hei2 & ->).
    destruct (Hes' _ _ Hej') as (ej2 & Hej2 & ->).
    assert (pi' = pi) by congruence. assert (pj' = pj) by congruence.
    assert (ei2 = ei) by congruence. assert (ej2 = ej) by congruence.
    subst. apply same_number_leb; apply Hd;
      eapply nth_error_In; eassumption.
  - rewrite (first_max_unique _ _ _ _ _ Hfm' Hfm2) in Hpk'.
    rewrite Hsel, Hsel'. congruence.
Qed.

Lemma shift_keeps_selection_witness :
  selector [1; 2; 3; 4; 5]%Z (map (fun e => e + 1) [10; 8; 3; 7; 9])
  = selector [1; 2; 3; 4; 5]%Z [10; 8; 3; 7; 9] /\
  forall p e, In p [1; 2; 3; 4; 5]%Z -> In e [10; 8; 3; 7; 9] ->
    same_number
      (below_line [1; 2; 3; 4; 5]%Z (map (fun e => e + 1) [10; 8; 3; 7; 9])
                  p (e + 1))
      (below_line [1; 2; 3; 4; 5]%Z [10; 8; 3; 7; 9] p e).
Proof.
  apply (shift_keeps_selection [1; 2; 3; 4; 5]%Z [10; 8; 3; 7; 9] 1);
    reflexivity.
Defined.




End Claims.

(** * Further properties of the notebooks *)

(** ** The sweep and its use by the elbow cell *)

Section SweepFacts.

Local Open Scope float_scope.
Import FloatOrder.

Lemma range_from_length a len : List.length (range_from a len) = len.
Proof. revert a. induction len; intros a; simpl; auto. Qed.

Lemma range_from_nth a len i :
  (i < len)%nat -> nth_error (range_from a len) i = Some (a + Z.of_nat i)%Z.
Proof.
  revert a i. induction len as [|len IH]; intros a i Hi; [lia|].
  destruct i as [|i]; simpl.
  - f_equal. lia.
  - rewrite IH by lia. f_equal. lia.
Qed.

Lemma range_from_In a len p :
  In p (range_from a len) <-> (a <= p < a + Z.of_nat len)%Z.
Proof.
  revert a. induction len as [|len IH]; intros a; simpl.
  - split; [tauto | lia].
  - rewrite IH. lia.
Qed.

Lemma range_from_increasing a len : strictly_increasing (range_from a len) = true.
Proof.
  revert a. induction len as [|len IH]; intros a; [reflexivity|].
  specialize (IH (a + 1)%Z). simpl. destruct len as [|len]; [reflexivity|].
  simpl in *. rewrite IH. replace (a <? a + 1)%Z with true; [reflexivity|].
  symmetry. apply Z.ltb_lt. lia.
Qed.

Lemma py_range_length a b : List.length (py_range a b) = Z.to_nat (b - a).
Proof. apply range_from_length. Qed.

Lemma py_range_In a b p : In p (py_range a b) <-> (a <= p < b)%Z.
Proof. unfold py_range. rewrite range_from_In. lia. Qed.

Lemma range_from_app a len1 len2 :
  range_from a (len1 + len2)
  = range_from a len1 ++ range_from (a + Z.of_nat len1) len2.
Proof.
  revert a. induction len1 as [|len1 IH]; intros a.
  - simpl. f_equal. lia.
  - simpl range_from. rewrite IH. simpl. do 3 f_equal. lia.
Qed.

Lemma py_range_split a m b :
  (a <= m < b)%Z -> py_range a b = py_range a m ++ m :: py_range (m + 1) b.
Proof.
  intros H. unfold py_range.
  replace (Z.to_nat (b - a))
    with (Z.to_nat (m - a) + S (Z.to_nat (b - (m + 1))))%nat by lia.
  rewrite range_from_app. simpl. do 2 f_equal; [lia|]. f_equal. lia.
Qed.

Lemma namespace_eta st :
  mkNamespace (n_est st) (val_mad st) (slope st) (intercept st) (best_n st)
              (stdout st) = st.
Proof. destruct st; reflexivity. Qed.

(** The loop appends one score per parameter value, in order, and stops
    at the first score that raises. *)
Lemma for_in_sweep_ok score f l : forall st,
  (forall n, In n l -> score n = Ok (f n)) ->
  for_in l (sweep_body score) st =
  (mkNamespace (n_est st) (val_mad st ++ map f l) (slope st) (intercept st)
               (best_n st) (stdout st), Ok tt).
Proof.
  induction l as [|n l IH]; intros st H.
  - simpl. rewrite app_nil_r, namespace_eta. reflexivity.
  - simpl for_in. unfold bind at 1. unfold sweep_body at 1.
    unfold bind at 1, eval at 1. rewrite (H n (or_introl eq_refl)).
    unfold val_mad_append. rewrite IH by (intros; apply H; now right).
    simpl. now rewrite <- app_assoc.
Qed.

Lemma for_in_sweep_raise score f l1 m l2 e : forall st,
  (forall n, In n l1 -> score n = Ok (f n)) -> score m = Raise e ->
  for_in (l1 ++ m :: l2) (sweep_body score) st =
  (mkNamespace (n_est st) (val_mad st ++ map f l1) (slope st) (intercept st)
               (best_n st) (stdout st), Raise e).
Proof.
  induction l1 as [|n l1 IH]; intros st H Hm.
  - simpl. unfold bind at 1. unfold sweep_body at 1.
    unfold bind at 1, eval at 1. rewrite Hm.
    rewrite app_nil_r, namespace_eta. reflexivity.
  - simpl for_in. unfold bind at 1. unfold sweep_body at 1.
    unfold bind at 1, eval at 1. rewrite (H n (or_introl eq_refl)).
    unfold val_mad_append.
    rewrite IH by (auto; intros; apply H; now right).
    simpl. now rewrite <- app_assoc.
Qed.

Lemma sweep_cell_ok score f st :
  (forall n, (1 <= n <= 200)%Z -> score n = Ok (f n)) ->
  sweep_cell score st =
  (mkNamespace (py_range 1 201) (map f (py_range 1 201)) (slope st)
               (intercept st) (best_n st) (stdout st), Ok tt).
Proof.
  intros H. unfold sweep_cell, bind, set_n_est, set_val_mad, eval.
  cbn [n_est val_mad slope intercept best_n stdout].
  rewrite for_in_sweep_ok with (f := f).
  - reflexivity.
  - intros n Hn. apply H. apply py_range_In in Hn. lia.
Qed.

(** X1: when every fit succeeds, the sweep cell leaves the parameter values
    1..200 in [n_est] and exactly their scores, in the same order, in
    [val_mad], whatever the two names were bound to before; nothing else
    in the namespace changes. *)
Theorem sweep_cell_records score f st :
  (forall n, (1 <= n <= 200)%Z -> score n = Ok (f n)) ->
  sweep_cell score st =
  (mkNamespace (py_range 1 201) (map f (py_range 1 201)) (slope st)
               (intercept st) (best_n st) (stdout st), Ok tt) /\
  List.length (py_range 1 201) = 200%nat /\
  forall i, (i < 200)%nat ->
    nth_error (py_range 1 201) i = Some (1 + Z.of_nat i)%Z /\
    nth_error (map f (py_range 1 201)) i = Some (f (1 + Z.of_nat i)%Z).
Proof.
  intros H. split; [|split].
  - now apply sweep_cell_ok.
  - reflexivity.
  - intros i Hi.
    assert (E : nth_error (py_range 1 201) i = Some (1 + Z.of_nat i)%Z)
      by (apply range_from_nth; simpl; lia).
    split; [exact E|]. now rewrite nth_error_map, E.
Qed.

Lemma sweep_cell_records_witness :
  val_mad (fst (sweep_cell (fun n => Ok (float_of_int (200 - n)))
                  (fresh [7]%Z [0.5])))
  = map (fun n => float_of_int (200 - n)) (py_range 1 201).
Proof.
  destruct (sweep_cell_records (fun n => Ok (float_of_int (200 - n)))
              (fun n => float_of_int (200 - n)) (fresh [7]%Z [0.5]))
    as [H _]; [reflexivity|].
  rewrite H. reflexivity.
Defined.

(** X2: when the fit for [m] estimators raises after all earlier fits
    succeeded, the sweep cell raises the same exception and leaves the
    lists out of step: [n_est] holds all 200 values, [val_mad] only the
    [m - 1] scores recorded so far. *)
Theorem sweep_cell_interrupted score f m e st :
  (1 <= m <= 200)%Z ->
  (forall n, (1 <= n < m)%Z -> score n = Ok (f n)) ->
  score m = Raise e ->
  sweep_cell score st =
  (mkNamespace (py_range 1 201) (map f (py_range 1 m)) (slope st)
               (intercept st) (best_n st) (stdout st), Raise e) /\
  List.length (map f (py_range 1 m)) = Z.to_nat (m - 1).
Proof.
  intros Hm H He. split.
  - unfold sweep_cell, bind, set_n_est, set_val_mad, eval.
    cbn [n_est val_mad slope intercept best_n stdout].
    rewrite (py_range_split 1 m 201) at 1 by lia.
    rewrite for_in_sweep_raise with (f := f) (e := e).
    + reflexivity.
    + intros n Hn. apply H. apply py_range_In in Hn. lia.
    + exact He.
  - now rewrite length_map, py_range_length.
Qed.

Lemma sweep_cell_interrupted_witness :
  snd (sweep_cell (fun n => if (n <? 3)%Z then Ok 1 else Raise ValueError)
         (fresh [] [])) = Raise ValueError /\
  val_mad (fst (sweep_cell
                  (fun n => if (n <? 3)%Z then Ok 1 else Raise ValueError)
                  (fresh [] []))) = [1; 1].
Proof.
  destruct (sweep_cell_interrupted
              (fun n => if (n <? 3)%Z then Ok 1 else Raise ValueError)
              (fun _ => 1) 3 ValueError (fresh [] [])) as [H _].
  - lia.
  - intros n Hn. replace (n <? 3)%Z with true; [reflexivity|].
    symmetry. apply Z.ltb_lt. lia.
  - reflexivity.
  - rewrite H. split; reflexivity.
Defined.

(** On a non-empty numeric sweep of matching lengths the cell succeeds,
    and the namespace it leaves is known. *)
Lemma elbow_cell_ok st :
  np.is_numeric (n_est st) = true ->
  n_est st <> [] -> List.length (n_est st) = List.length (val_mad st) ->
  exists k v dk,
    elbow_cell st =
    (mkNamespace (n_est st) (val_mad st)
       (Some (chord_slope (n_est st) (val_mad st)))
       (Some (chord_intercept (n_est st) (val_mad st))) (Some k)
       (stdout st ++ [("The best value of n is " ++ format_int v ++ ".")%string]),
     Ok v) /\
    nth_error (n_est st) k = Some v /\
    first_max (distances (n_est st) (val_mad st)) k dk.
Proof.
  intros Hnum Hn Hlen.
  assert (He : val_mad st <> [])
    by (destruct (n_est st), (val_mad st); simpl in *; congruence).
  destruct (selector_first_max _ _ Hnum Hn Hlen)
    as (k & v & dk & Hk & Hfm & Hv & _).
  exists k, v, dk. split; [|split; assumption].
  apply cell_run.
  - now apply slope_expr_chord.
  - now apply intercept_expr_chord.
  - rewrite (best_n_expr_numeric _ _ _ _ Hnum), (dist_expr_chord _ _ Hlen).
    exact Hk.
  - now apply getitem_nth.
Qed.

(** The parameter values of the sweep cell fit in 64 bits. *)
Lemma sweep_numeric : np.is_numeric (py_range 1 201) = true.
Proof. vm_compute. reflexivity. Qed.

(** X3: running the sweep cell and then the elbow cell never fails when
    every fit succeeds, whatever the scores are (NaN and infinities
    included): the selected value lies in 1..200, so it is a valid
    [n_estimators], and the later cells that evaluate [n_est[best_n]] get
    the very value that was printed. *)
Theorem sweep_then_elbow score f st :
  (forall n, (1 <= n <= 200)%Z -> score n = Ok (f n)) ->
  exists st' v,
    (sweep_cell score ;;; elbow_cell) st = (st', Ok v) /\
    (1 <= v <= 200)%Z /\
    stdout st' = stdout st
                 ++ [("The best value of n is " ++ format_int v ++ ".")%string] /\
    n_estimators_arg st' = (st', Ok v).
Proof.
  intros H. pose proof (sweep_cell_ok score f st H) as Hsw.
  set (st1 := mkNamespace (py_range 1 201) (map f (py_range 1 201)) (slope st)
                (intercept st) (best_n st) (stdout st)) in *.
  destruct (elbow_cell_ok st1) as (k & v & dk & Hcell & Hv & _).
  - exact sweep_numeric.
  - discriminate.
  - unfold st1. cbn [n_est val_mad]. now rewrite length_map.
  - eexists. exists v. split; [|split; [|split]].
    + unfold bind at 1. rewrite Hsw. exact Hcell.
    + apply nth_error_In in Hv. change (n_est st1) with (py_range 1 201) in Hv.
      apply py_range_In in Hv. lia.
    + reflexivity.
    + unfold n_estimators_arg, bind, lookup, eval. cbn [best_n n_est].
      unfold chosen_expr. now rewrite (getitem_nth _ _ _ Hv).
Qed.

Lemma sweep_then_elbow_witness :
  exists st' v,
    (sweep_cell (fun n => Ok (float_of_int (200 - n))) ;;; elbow_cell)
      (fresh [] []) = (st', Ok v) /\
    (1 <= v <= 200)%Z.
Proof.
  destruct (sweep_then_elbow (fun n => Ok (float_of_int (200 - n)))
              (fun n => float_of_int (200 - n)) (fresh [] []))
    as (st' & v & H1 & H2 & _); [reflexivity|].
  exists st', v. auto.
Defined.

(** X4: when every score is finite the sweep cell leaves a valid sweep:
    strictly increasing parameter values, a non-zero range and as many
    finite errors. *)
Theorem sweep_cell_valid score f st :
  (forall n, (1 <= n <= 200)%Z ->
             score n = Ok (f n) /\ is_finite (f n) = true) ->
  snd (sweep_cell score st) = Ok tt /\
  valid_sweep (n_est (fst (sweep_cell score st)))
              (val_mad (fst (sweep_cell score st))) = true.
Proof.
  intros H.
  pose proof (sweep_cell_ok score f st (fun n Hn => proj1 (H n Hn))) as Hsw.
  rewrite Hsw. split; [reflexivity|].
  cbn [fst n_est val_mad]. unfold valid_sweep.
  assert (Hfin : all_finite (map f (py_range 1 201)) = true); [|rewrite Hfin].
  2:{ change (py_range 1 201) with (range_from 1 200).
      rewrite (range_from_increasing 1 200), length_map, range_from_length.
      reflexivity. }
  unfold all_finite. apply forallb_forall.
  intros x Hx. apply in_map_iff in Hx. destruct Hx as (n & <- & Hn).
  apply py_range_In in Hn. apply H. lia.
Qed.

Lemma sweep_cell_valid_witness :
  valid_sweep
    (n_est (fst (sweep_cell (fun n => Ok (float_of_int (200 - n)))
                   (fresh [] []))))
    (val_mad (fst (sweep_cell (fun n => Ok (float_of_int (200 - n)))
                     (fresh [] [])))) = true.
Proof.
  apply (sweep_cell_valid (fun n => Ok (float_of_int (200 - n)))
           (fun n => float_of_int (200 - n)) (fresh [] [])).
  intros n Hn. split; [reflexivity|].
  assert (Hall : forallb (fun n => is_finite (float_of_int (200 - n)))
                   (py_range 1 201) = true) by (vm_compute; reflexivity).
  rewrite forallb_forall in Hall. apply Hall. apply py_range_In. lia.
Defined.

Lemma getitem_raise {A} (l : list A) (k : nat) e :
  getitem l (Z.of_nat k) = Raise e ->
  e = IndexError /\ (List.length l <= k)%nat.
Proof.
  intros H. destruct (nth_error l k) as [x|] eqn:E.
  - rewrite (getitem_nth l k x E) in H. discriminate.
  - apply nth_error_None in E. split; [|assumption].
    unfold getitem in H. destruct (_ && _); [|congruence].
    destruct (nth_error l _); congruence.
Qed.

(** X5: a run of the elbow cell that succeeds prints exactly one line, for
    the value at the index it binds [best_n] to.  A run that fails prints
    nothing, and leaves [best_n] bound as it was before, stale from an
    earlier run if there was one, unless it is the final lookup
    [n_est[best_n]] that fails. *)
Theorem elbow_cell_outcome st :
  match elbow_cell st with
  | (st', Ok v) =>
      stdout st' = stdout st
                   ++ [("The best value of n is " ++ format_int v ++ ".")%string] /\
      exists k, best_n st' = Some k /\ nth_error (n_est st) k = Some v
  | (st', Raise e) =>
      stdout st' = stdout st /\
      (best_n st' = best_n st \/
       (e = IndexError /\
        exists k, best_n st' = Some k /\ (List.length (n_est st) <= k)%nat))
  end.
Proof.
  unfold elbow_cell, bind, eval, lookup, ret, set_slope, set_intercept,
    set_best_n, print.
  destruct (slope_expr (n_est st) (val_mad st)) as [s|e]; simpl; [|auto].
  destruct (intercept_expr (n_est st) (val_mad st) s) as [c|e]; simpl; [|auto].
  destruct (best_n_expr (n_est st) (val_mad st) s c) as [k|e]; simpl; [|auto].
  destruct (chosen_expr (n_est st) k) as [v|e] eqn:E; simpl.
  - split; [reflexivity|]. exists k. split; [reflexivity|].
    unfold chosen_expr in E.
    destruct (nth_error (n_est st) k) as [x|] eqn:Hx.
    + rewrite (getitem_nth _ _ _ Hx) in E. congruence.
    + apply nth_error_None in Hx. unfold getitem in E.
      destruct (_ && _); [|discriminate].
      destruct (nth_error (n_est st) _) eqn:E'; [|discriminate].
      injection E as <-. exfalso.
      assert (Z.to_nat (if (Z.of_nat k <? 0)%Z
                        then (Z.of_nat (List.length (n_est st)) + Z.of_nat k)%Z
                        else Z.of_nat k) = k).
      { replace (Z.of_nat k <? 0)%Z with false
          by (symmetry; apply Z.ltb_ge; lia). lia. }
      rewrite H in E'. apply nth_error_None in Hx. congruence.
  - split; [reflexivity|]. right.
    destruct (getitem_raise _ _ _ E) as [-> Hlen]. eauto.
Qed.

(** X6: with no parameter value or no score at all, the elbow cell fails
    at its first statement with an [IndexError] and changes nothing. *)
Theorem elbow_cell_empty st :
  n_est st = [] \/ val_mad st = [] ->
  elbow_cell st = (st, Raise IndexError).
Proof.
  intros H.
  assert (E : slope_expr (n_est st) (val_mad st) = Raise IndexError).
  { unfold slope_expr. destruct (val_mad st) as [|x l] eqn:V.
    - now rewrite getitem_nil.
    - destruct H as [H|H]; [|discriminate].
      rewrite (getitem_last (x :: l) x), (getitem_first (x :: l) x)
        by discriminate.
      cbn [rbind]. now rewrite H, getitem_nil. }
  unfold elbow_cell, bind, eval. now rewrite E.
Qed.

Lemma elbow_cell_empty_witness :
  elbow_cell (fresh [1; 2]%Z []) = (fresh [1; 2]%Z [], Raise IndexError).
Proof. apply elbow_cell_empty. right. reflexivity. Defined.

Lemma np_sub_mismatch a b :
  (2 <= List.length a)%nat -> (2 <= List.length b)%nat ->
  List.length a <> List.length b -> np.sub a b = Raise ValueError.
Proof.
  intros Ha Hb Hne. unfold np.sub.
  replace (List.length a =? List.length b)%nat with false
    by (symmetry; now apply Nat.eqb_neq).
  destruct a as [|x [|x' a]]; simpl in Ha; try lia.
  destruct b as [|y [|y' b]]; simpl in Hb; try lia. reflexivity.
Qed.

Lemma line_expr_length ns s c : List.length (line_expr ns s c) = List.length ns.
Proof. unfold line_expr, np.add_scalar, np.mul_scalar. now rewrite !length_map. Qed.

(** X7: when the two lists both have at least two elements but different
    lengths, as after an interrupted sweep, and the parameter values fit
    in 64 bits, the elbow cell fails with the [ValueError] of the array
    subtraction.  By then it has rebound [slope] and [intercept];
    [best_n] and the output are as before. *)
Theorem elbow_cell_length_mismatch st :
  np.is_numeric (n_est st) = true ->
  (2 <= List.length (n_est st))%nat -> (2 <= List.length (val_mad st))%nat ->
  List.length (n_est st) <> List.length (val_mad st) ->
  elbow_cell st =
  (mkNamespace (n_est st) (val_mad st)
     (Some (chord_slope (n_est st) (val_mad st)))
     (Some (chord_intercept (n_est st) (val_mad st)))
     (best_n st) (stdout st),
   Raise ValueError).
Proof.
  intros Hnum Hn He Hne.
  assert (Hn' : n_est st <> [])
    by (destruct (n_est st); [simpl in Hn; lia | discriminate]).
  assert (He' : val_mad st <> [])
    by (destruct (val_mad st); [simpl in He; lia | discriminate]).
  unfold elbow_cell, bind, eval, lookup, set_slope, set_intercept.
  rewrite (slope_expr_chord _ _ Hnum Hn' He').
  cbn [n_est val_mad slope intercept].
  rewrite (intercept_expr_chord _ _ Hnum Hn' He').
  cbn [n_est val_mad slope intercept].
  rewrite (best_n_expr_numeric _ _ _ _ Hnum). unfold dist_expr.
  rewrite np_sub_mismatch; [reflexivity| | |];
    rewrite ?line_expr_length; assumption.
Qed.

Lemma elbow_cell_length_mismatch_witness :
  snd (elbow_cell (fresh [1; 2; 3]%Z [5; 4])) = Raise ValueError.
Proof.
  rewrite (elbow_cell_length_mismatch (fresh [1; 2; 3]%Z [5; 4]));
    [reflexivity | reflexivity | simpl; lia | simpl; lia | simpl; lia].
Defined.

(** X8: a single score is broadcast against all the parameter values: with
    one element in [val_mad] and any non-empty [n_est] whose values fit in
    64 bits the elbow cell does not fail, and selects one of the
    parameter values. *)
Theorem elbow_cell_single_score st e :
  val_mad st = [e] -> n_est st <> [] -> np.is_numeric (n_est st) = true ->
  exists st' v, elbow_cell st = (st', Ok v) /\ In v (n_est st).
Proof.
  intros Hv Hn Hnum.
  assert (He : val_mad st <> []) by (rewrite Hv; discriminate).
  set (s := chord_slope (n_est st) (val_mad st)).
  set (c := chord_intercept (n_est st) (val_mad st)).
  assert (Hd : exists d, dist_expr (n_est st) (val_mad st) s c = Ok d /\
                         List.length d = List.length (n_est st)).
  { unfold dist_expr, np.sub. rewrite Hv.
    destruct (Nat.eqb _ _) eqn:E.
    - eexists. split; [reflexivity|].
      apply Nat.eqb_eq in E. rewrite line_expr_length in E.
      destruct (n_est st) as [|p [|p' l]]; try discriminate; reflexivity.
    - destruct (line_expr (n_est st) s c) as [|x [|x' l]] eqn:L;
        (eexists; split; [reflexivity|]);
        rewrite ?length_map, <- L, line_expr_length; reflexivity. }
  destruct Hd as (d & Hd & Hlen).
  assert (Hne : d <> []).
  { intros ->. destruct (n_est st); [congruence | discriminate]. }
  destruct (argmax_nonempty d Hne) as [k Hk].
  destruct (argmax_first_max d k Hk) as [dk Hfm].
  pose proof (first_max_lt _ _ _ Hfm) as Hlt. rewrite Hlen in Hlt.
  destruct (nth_error (n_est st) k) as [v|] eqn:Hnth;
    [|apply nth_error_None in Hnth; lia].
  eexists. exists v. split.
  - apply (cell_run st s c k v).
    + now apply slope_expr_chord.
    + now apply intercept_expr_chord.
    + rewrite (best_n_expr_numeric _ _ _ _ Hnum). fold s c. now rewrite Hd.
    + now apply getitem_nth.
  - eapply nth_error_In; eassumption.
Qed.

Lemma elbow_cell_single_score_witness :
  exists st' v,
    elbow_cell (fresh [1; 2; 3]%Z [5]) = (st', Ok v) /\ In v [1; 2; 3]%Z.
Proof.
  apply (elbow_cell_single_score (fresh [1; 2; 3]%Z [5]) 5);
    [reflexivity | discriminate | reflexivity].
Defined.

(** An integer of magnitude [2^1024] or more rounds to an infinity. *)
Lemma float_of_int_overflow z :
  (2 ^ 1024 <= Z.abs z)%Z -> is_finite (float_of_int z) = false.
Proof.
  intros Hz.
  assert (Hpos : float_of_int (2 ^ 1024) = infinity)
    by (vm_compute; reflexivity).
  assert (Hneg : float_of_int (- 2 ^ 1024) = neg_infinity)
    by (vm_compute; reflexivity).
  destruct (is_finite (float_of_int z)) eqn:F; [exfalso|reflexivity].
  apply is_finite_ffin in F. unfold ffin in F.
  destruct (Z_lt_le_dec z 0) as [Hlt|Hge].
  - pose proof (float_of_int_mono z (- 2 ^ 1024) ltac:(lia)) as H.
    rewrite Hneg, FloatAxioms.leb_spec in H.
    change (Prim2SF neg_infinity) with (S754_infinity true) in H.
    destruct (Prim2SF (float_of_int z)) as [[]|[]| |[] ? ?];
      discriminate.
  - pose proof (float_of_int_mono (2 ^ 1024) z ltac:(lia)) as H.
    rewrite Hpos, FloatAxioms.leb_spec in H.
    change (Prim2SF infinity) with (S754_infinity false) in H.
    destruct (Prim2SF (float_of_int z)) as [[]|[]| |[] ? ?];
      discriminate.
Qed.

(** X19: when the two lists are not empty and the range of the parameter
    values, [n_est[-1]-n_est[0]], has magnitude [2^1024] or more, the
    cell fails at its first statement with an [OverflowError], the range
    being too large to convert for the division, and changes nothing. *)
Theorem elbow_cell_range_overflow st :
  n_est st <> [] -> val_mad st <> [] ->
  (2 ^ 1024 <= Z.abs (last (n_est st) 0%Z - hd 0%Z (n_est st)))%Z ->
  elbow_cell st = (st, Raise OverflowError).
Proof.
  intros Hn He Hbig.
  assert (E : slope_expr (n_est st) (val_mad st) = Raise OverflowError).
  { unfold slope_expr.
    rewrite (getitem_last _ 0 He), (getitem_first _ 0 He).
    rewrite (getitem_last _ 0%Z Hn), (getitem_first _ 0%Z Hn).
    cbn [rbind]. unfold PyLong_AsDouble.
    now rewrite (float_of_int_overflow _ Hbig). }
  unfold elbow_cell, bind, eval. now rewrite E.
Qed.

Lemma elbow_cell_range_overflow_witness :
  elbow_cell (fresh [0; 1; 2 ^ 1024]%Z [3; 1; 2])
  = (fresh [0; 1; 2 ^ 1024]%Z [3; 1; 2], Raise OverflowError).
Proof.
  apply (elbow_cell_range_overflow (fresh [0; 1; 2 ^ 1024]%Z [3; 1; 2]));
    [discriminate | discriminate | vm_compute; discriminate].
Defined.

End SweepFacts.

(** ** The labels of the Keras notebook *)

Section DetermineZFacts.

Local Open Scope float_scope.
Import FloatOrder DistKeras.

Lemma SFltb_false_leb x y :
  SFnan x = false -> SFnan y = false -> SFltb x y = false -> SFleb y x = true.
Proof. sf_order. Qed.

Lemma SFleb_ltb_trans x y z :
  SFleb x y = true -> SFltb y z = true -> SFltb x z = true.
Proof. sf_order. Qed.

Lemma ltb_false_leb x y :
  is_nan x = false -> is_nan y = false -> (x <? y) = false -> (y <=? x) = true.
Proof.
  rewrite !is_nan_spec, FloatAxioms.ltb_spec, FloatAxioms.leb_spec.
  apply SFltb_false_leb.
Qed.

Lemma leb_ltb_trans x y z :
  (x <=? y) = true -> (y <? z) = true -> (x <? z) = true.
Proof.
  rewrite FloatAxioms.leb_spec, !FloatAxioms.ltb_spec. apply SFleb_ltb_trans.
Qed.

Lemma ltb_nan_r x y : is_nan y = true -> (x <? y) = false.
Proof.
  intros H. destruct (x <? y) eqn:E; [|reflexivity].
  apply ltb_not_nan in E. destruct E; congruence.
Qed.

Variable np_sin : float -> float.

Lemma determine_z_band r z :
  determine_z np_sin r = Some z <-> in_band z (value_of np_sin r).
Proof.
  unfold determine_z, in_band. cbv zeta.
  set (v := value_of np_sin r).
  split.
  - destruct (v <? -1) eqn:A.
    { intros H. injection H as <-. auto. }
    destruct (-1 <=? v) eqn:B, (v <? 0) eqn:C; cbn [andb];
      try (intros H; injection H as <-; auto 6);
      destruct (0 <=? v) eqn:D, (v <? 1) eqn:E; cbn [andb];
      try (intros H; injection H as <-; auto 8);
      destruct (1 <=? v) eqn:F;
      try (intros H; injection H as <-; auto 8); discriminate.
  - assert (Hc : forall L U, (L <=? v) = true -> (v <? U) = true ->
                             (L <? U) = true).
    { intros L U H1 H2. eapply leb_ltb_trans; eassumption. }
    intros [[-> A]|[(-> & B & C)|[(-> & D & E)|[-> F]]]].
    + now rewrite A.
    + rewrite (leb_not_ltb _ _ B), B, C. reflexivity.
    + destruct (v <? -1) eqn:A.
      { pose proof (Hc 0 (-1) D A). discriminate. }
      destruct (v <? 0) eqn:C.
      { pose proof (Hc 0 0 D C). discriminate. }
      rewrite andb_false_r, D, E. reflexivity.
    + destruct (v <? -1) eqn:A.
      { pose proof (Hc 1 (-1) F A). discriminate. }
      destruct (v <? 0) eqn:C.
      { pose proof (Hc 1 0 F C). discriminate. }
      destruct (v <? 1) eqn:E.
      { pose proof (Hc 1 1 F E). discriminate. }
      rewrite !andb_false_r, F. reflexivity.
Qed.

(** X9: the four tests of [determine_z] cut the values into disjoint
    bands: the label is 0 exactly below -1, 1 exactly on [-1, 0), 2
    exactly on [0, 1) and 3 exactly from 1 on; no other label is ever
    returned. *)
Theorem determine_z_bands r z :
  determine_z np_sin r = Some z <-> in_band z (value_of np_sin r).
Proof. apply determine_z_band. Qed.

(** X10: [determine_z] falls through all four tests and returns [None]
    exactly when the sum of the two sines is a NaN; for every other value
    it returns a label between 0 and 3. *)
Theorem determine_z_none_iff_nan r :
  (determine_z np_sin r = None <-> is_nan (value_of np_sin r) = true) /\
  (forall z, determine_z np_sin r = Some z -> (0 <= z <= 3)%Z).
Proof.
  split.
  - unfold determine_z. cbv zeta. set (v := value_of np_sin r). split.
    + intros H. destruct (is_nan v) eqn:N; [reflexivity|exfalso].
      destruct (v <? -1) eqn:A; [discriminate|].
      assert (B : (-1 <=? v) = true)
        by (apply ltb_false_leb; [assumption | reflexivity | assumption]).
      rewrite B in H. cbn [andb] in H.
      destruct (v <? 0) eqn:C; [discriminate|].
      assert (D : (0 <=? v) = true)
        by (apply ltb_false_leb; [assumption | reflexivity | assumption]).
      rewrite D in H. cbn [andb] in H.
      destruct (v <? 1) eqn:E; [discriminate|].
      assert (F : (1 <=? v) = true)
        by (apply ltb_false_leb; [assumption | reflexivity | assumption]).
      rewrite F in H. discriminate.
    + intros N.
      rewrite (ltb_nan_l v (-1) N), (ltb_nan_l v 0 N), (ltb_nan_l v 1 N).
      rewrite (leb_nan_r (-1) v N), (leb_nan_r 0 v N), (leb_nan_r 1 v N).
      reflexivity.
  - intros z H. apply determine_z_band in H.
    destruct H as [[-> _]|[(-> & _)|[(-> & _)|[-> _]]]]; lia.
Qed.

(** X11: the label is monotone in the value: a row whose sum of sines is
    not above that of another row does not get a greater label. *)
Theorem determine_z_monotone r1 r2 z1 z2 :
  (value_of np_sin r1 <=? value_of np_sin r2) = true ->
  determine_z np_sin r1 = Some z1 -> determine_z np_sin r2 = Some z2 ->
  (z1 <= z2)%Z.
Proof.
  intros Hle H1 H2.
  apply determine_z_band in H1. apply determine_z_band in H2.
  set (v := value_of np_sin r1) in *. set (w := value_of np_sin r2) in *.
  assert (Hc : forall L U, (L <=? v) = true -> (w <? U) = true ->
                           (L <? U) = true).
  { intros L U A B. eapply leb_ltb_trans; [|exact B].
    eapply leb_trans; eassumption. }
  destruct H1 as [[-> A]|[(-> & A & A')|[(-> & A & A')|[-> A]]]];
    destruct H2 as [[-> B]|[(-> & B' & B)|[(-> & B' & B)|[-> B]]]];
    try lia; exfalso.
  - pose proof (Hc (-1) (-1) A B). discriminate.
  - pose proof (Hc 0 (-1) A B). discriminate.
  - pose proof (Hc 0 0 A B). discriminate.
  - pose proof (Hc 1 (-1) A B). discriminate.
  - pose proof (Hc 1 0 A B). discriminate.
  - pose proof (Hc 1 1 A B). discriminate.
Qed.

Lemma SFadd_comm x y : SF64add x y = SF64add y x.
Proof.
  unfold SF64add, SFadd.
  destruct x as [[]|[]| |[] mx ex], y as [[]|[]| |[] my ey];
    try reflexivity;
    rewrite (Z.min_comm ey ex), Z.add_comm; reflexivity.
Qed.

Lemma add_comm x y : x + y = y + x.
Proof. apply Prim2SF_inj. rewrite !add_spec. apply SFadd_comm. Qed.

(** X12: the label does not change when the two coordinates of a row are
    exchanged. *)
Theorem determine_z_symmetric x y :
  determine_z np_sin (mkRow x y) = determine_z np_sin (mkRow y x).
Proof.
  unfold determine_z, value_of. cbn [X Y].
  now rewrite (add_comm (np_sin x) (np_sin y)).
Qed.

End DetermineZFacts.

Lemma determine_z_monotone_witness :
  DistKeras.determine_z (fun x => x) (DistKeras.mkRow (-0.75) 0.25) = Some 1%Z /\
  DistKeras.determine_z (fun x => x) (DistKeras.mkRow 0.5 0.75) = Some 3%Z /\
  (1 <= 3)%Z.
Proof.
  split; [reflexivity | split; [reflexivity|]].
  apply (determine_z_monotone (fun x => x)
           (DistKeras.mkRow (-0.75) 0.25) (DistKeras.mkRow 0.5 0.75) 1 3);
    reflexivity.
Defined.

(** ** The feature columns of the Keras notebook *)

Section FeatureFacts.

Local Open Scope string_scope.
Import DistKeras.

Lemma list_remove_absent x l : ~ In x l -> list_remove x l = Raise ValueError.
Proof.
  induction l as [|y l IH]; intros H; [reflexivity|]. simpl.
  destruct (String.eqb_spec y x) as [->|Hne].
  - exfalso. apply H. now left.
  - rewrite IH; [reflexivity|]. intros Hin. apply H. now right.
Qed.

Lemma list_remove_present x l :
  In x l ->
  exists l', list_remove x l = Ok l' /\
             List.length l = S (List.length l') /\
             (forall y, y <> x -> (In y l' <-> In y l)) /\
             (NoDup l -> l' = filter (fun y => negb (String.eqb y x)) l).
Proof.
  induction l as [|y l IH]; intros H; [destruct H|]. simpl.
  destruct (String.eqb_spec y x) as [->|Hne].
  - exists l. split; [reflexivity|]. split; [reflexivity|]. split.
    + intros y Hy. split; [now right|]. intros [E|E]; [congruence|assumption].
    + intros Hnd. inversion Hnd as [|? ? Hnotin Hnd']; subst. simpl.
      symmetry. apply forallb_filter_id. apply forallb_forall.
      intros z Hz. apply negb_true_iff. apply String.eqb_neq. congruence.
  - destruct H as [H|H]; [congruence|].
    destruct (IH H) as (l' & -> & Hlen & Hmem & Hfil).
    exists (y :: l'). split; [reflexivity|]. split; [simpl; lia|]. split.
    + intros z Hz. simpl. rewrite (Hmem z Hz). tauto.
    + intros Hnd. inversion Hnd as [|? ? Hnotin Hnd']; subst. simpl.
      now rewrite Hfil.
Qed.

Lemma list_remove_In x l l' : list_remove x l = Ok l' -> In x l.
Proof.
  intros H. destruct (in_dec string_dec x l) as [Hin|Hout]; [assumption|].
  rewrite (list_remove_absent x l Hout) in H. discriminate.
Qed.

Lemma remove_stmt_present x l :
  In x l ->
  exists l', remove_stmt x l = (l', Ok tt) /\
             List.length l = S (List.length l') /\
             (forall y, y <> x -> (In y l' <-> In y l)) /\
             (NoDup l -> l' = filter (fun y => negb (String.eqb y x)) l).
Proof.
  intros H. destruct (list_remove_present x l H) as (l' & E & R).
  exists l'. unfold remove_stmt. rewrite E. auto.
Qed.

Lemma remove_stmt_absent x l :
  ~ In x l -> remove_stmt x l = (l, Raise ValueError).
Proof.
  intros H. unfold remove_stmt. now rewrite (list_remove_absent x l H).
Qed.

Lemma remove_stmt_ok x l l' : remove_stmt x l = (l', Ok tt) -> In x l.
Proof.
  unfold remove_stmt. destruct (list_remove x l) eqn:E; [|discriminate].
  intros _. eapply list_remove_In; eassumption.
Qed.

Lemma select_features_run columns :
  In "EventId" columns -> In "Weight" columns -> In "Label" columns ->
  exists f1 f2 f3,
    remove_stmt "EventId" columns = (f1, Ok tt) /\
    remove_stmt "Weight" f1 = (f2, Ok tt) /\
    remove_stmt "Label" f2 = (f3, Ok tt) /\
    select_features columns = (f3, Ok tt) /\
    List.length columns = S (S (S (List.length f3))) /\
    (forall y, y <> "EventId" -> y <> "Weight" -> y <> "Label" ->
               (In y f3 <-> In y columns)) /\
    (NoDup columns ->
     f3 = filter (fun y => negb (String.eqb y "Label"))
            (filter (fun y => negb (String.eqb y "Weight"))
               (filter (fun y => negb (String.eqb y "EventId")) columns))).
Proof.
  intros H1 H2 H3.
  destruct (remove_stmt_present "EventId" columns H1)
    as (f1 & E1 & L1 & M1 & F1).
  assert (H2' : In "Weight" f1) by (apply M1; [discriminate | assumption]).
  destruct (remove_stmt_present "Weight" f1 H2') as (f2 & E2 & L2 & M2 & F2).
  assert (H3' : In "Label" f2).
  { apply M2; [discriminate|]. apply M1; [discriminate | assumption]. }
  destruct (remove_stmt_present "Label" f2 H3') as (f3 & E3 & L3 & M3 & F3).
  exists f1, f2, f3. repeat (split; [assumption|]).
  split; [unfold select_features; rewrite E1; simpl; rewrite E2; simpl; exact E3|].
  split; [lia|]. split.
  - intros y A B C. rewrite (M3 y C), (M2 y B), (M1 y A). tauto.
  - intros Hnd. rewrite (F1 Hnd) in *.
    assert (Hnd1 : NoDup (filter (fun y => negb (String.eqb y "EventId")) columns))
      by (now apply NoDup_filter).
    rewrite (F2 Hnd1) in *.
    apply F3. now apply NoDup_filter.
Qed.

(** X13: the three [features.remove] statements succeed exactly when the
    columns contain 'EventId', 'Weight' and 'Label'; any failure is a
    [ValueError]; on success [nb_features] is the number of columns
    minus three. *)
Theorem select_features_succeeds_iff columns :
  (snd (select_features columns) = Ok tt <->
   In "EventId" columns /\ In "Weight" columns /\ In "Label" columns) /\
  (snd (select_features columns) = Ok tt \/
   snd (select_features columns) = Raise ValueError) /\
  (snd (select_features columns) = Ok tt ->
   (nb_features (fst (select_features columns))
    = Z.of_nat (List.length columns) - 3)%Z).
Proof.
  destruct (in_dec string_dec "EventId" columns) as [H1|H1].
  2:{ unfold select_features.
      rewrite (remove_stmt_absent _ _ H1). simpl.
      split; [split; [discriminate | tauto]|]. split; [auto | discriminate]. }
  destruct (remove_stmt_present "EventId" columns H1)
    as (f1 & E1 & L1 & M1 & _).
  destruct (in_dec string_dec "Weight" columns) as [H2|H2].
  2:{ assert (H2' : ~ In "Weight" f1)
        by (intros A; apply H2; apply M1; [discriminate | assumption]).
      unfold select_features. rewrite E1. simpl.
      rewrite (remove_stmt_absent _ _ H2'). simpl.
      split; [split; [discriminate | tauto]|]. split; [auto | discriminate]. }
  destruct (in_dec string_dec "Label" columns) as [H3|H3].
  2:{ assert (H2' : In "Weight" f1) by (apply M1; [discriminate | assumption]).
      destruct (remove_stmt_present "Weight" f1 H2') as (f2 & E2 & _ & M2 & _).
      assert (H3' : ~ In "Label" f2).
      { intros A. apply H3. apply M1; [discriminate|].
        apply M2; [discriminate | assumption]. }
      unfold select_features. rewrite E1. simpl. rewrite E2. simpl.
      rewrite (remove_stmt_absent _ _ H3'). simpl.
      split; [split; [discriminate | tauto]|]. split; [auto | discriminate]. }
  destruct (select_features_run columns H1 H2 H3)
    as (f1' & f2 & f3 & _ & _ & _ & E & L & _).
  rewrite E. simpl. split; [tauto|]. split; [auto|].
  intros _. unfold nb_features. lia.
Qed.

(** X14: when the column names are distinct and the three statements
    succeed, [features] is the list of columns without 'EventId',
    'Weight' and 'Label', the other names in their original order. *)
Theorem select_features_filters columns :
  NoDup columns ->
  In "EventId" columns -> In "Weight" columns -> In "Label" columns ->
  select_features columns =
  (filter (fun c => negb (String.eqb c "EventId" || String.eqb c "Weight"
                          || String.eqb c "Label")) columns,
   Ok tt).
Proof.
  intros Hnd H1 H2 H3.
  destruct (select_features_run columns H1 H2 H3)
    as (f1 & f2 & f3 & _ & _ & _ & E & _ & _ & F).
  rewrite E, (F Hnd). f_equal.
  clear. induction columns as [|c l IH]; [reflexivity|]. simpl.
  destruct (String.eqb c "EventId"); simpl; [exact IH|].
  destruct (String.eqb c "Weight"); simpl; [exact IH|].
  destruct (String.eqb c "Label"); simpl; [exact IH|].
  now rewrite IH.
Qed.

Lemma select_features_filters_witness :
  select_features ["EventId"; "DER_mass_MMC"; "Weight"; "PRI_tau_pt"; "Label"]
  = (["DER_mass_MMC"; "PRI_tau_pt"], Ok tt).
Proof.
  rewrite (select_features_filters
             ["EventId"; "DER_mass_MMC"; "Weight"; "PRI_tau_pt"; "Label"]).
  - reflexivity.
  - repeat constructor; simpl; intuition discriminate.
  - simpl; auto.
  - simpl; auto.
  - simpl; auto 6.
Defined.

(** X15: a failing [remove] does not undo the earlier ones: when 'Weight'
    is missing, 'EventId' has already been deleted from [features], and
    when only 'Label' is missing, both 'EventId' and 'Weight' have. *)
Theorem select_features_partial columns :
  In "EventId" columns ->
  (~ In "Weight" columns ->
   exists f1, select_features columns = (f1, Raise ValueError) /\
              remove_stmt "EventId" columns = (f1, Ok tt) /\
              List.length columns = S (List.length f1)) /\
  (In "Weight" columns -> ~ In "Label" columns ->
   exists f1 f2, select_features columns = (f2, Raise ValueError) /\
                 remove_stmt "EventId" columns = (f1, Ok tt) /\
                 remove_stmt "Weight" f1 = (f2, Ok tt) /\
                 List.length columns = S (S (List.length f2))).
Proof.
  intros H1.
  destruct (remove_stmt_present "EventId" columns H1)
    as (f1 & E1 & L1 & M1 & _).
  split.
  - intros H2. exists f1.
    assert (H2' : ~ In "Weight" f1)
      by (intros A; apply H2; apply M1; [discriminate | assumption]).
    unfold select_features. rewrite E1. simpl.
    rewrite (remove_stmt_absent _ _ H2'). auto.
  - intros H2 H3.
    assert (H2' : In "Weight" f1) by (apply M1; [discriminate | assumption]).
    destruct (remove_stmt_present "Weight" f1 H2') as (f2 & E2 & L2 & M2 & _).
    assert (H3' : ~ In "Label" f2).
    { intros A. apply H3. apply M1; [discriminate|].
      apply M2; [discriminate | assumption]. }
    exists f1, f2. unfold select_features. rewrite E1. simpl. rewrite E2. simpl.
    rewrite (remove_stmt_absent _ _ H3'). repeat split; auto. lia.
Qed.

Lemma select_features_partial_witness :
  exists f1, select_features ["EventId"; "DER_mass_MMC"; "Label"]
             = (f1, Raise ValueError) /\
             remove_stmt "EventId" ["EventId"; "DER_mass_MMC"; "Label"]
             = (f1, Ok tt) /\
             List.length ["EventId"; "DER_mass_MMC"; "Label"]
             = S (List.length f1).
Proof.
  apply (select_features_partial ["EventId"; "DER_mass_MMC"; "Label"]).
  - simpl; auto.
  - simpl. intuition discriminate.
Defined.

End FeatureFacts.

(** ** The paths of the cars notebook *)

Section PathFacts.

Local Open Scope string_scope.
Import Cars.

Lemma append_length s t :
  String.length (s ++ t) = (String.length s + String.length t)%nat.
Proof. induction s as [|a s IH]; simpl; [reflexivity | now rewrite IH]. Qed.

Lemma append_assoc s t u : (s ++ t) ++ u = s ++ (t ++ u).
Proof. induction s as [|a s IH]; simpl; [reflexivity | now rewrite IH]. Qed.

Lemma append_inv_tail t : forall s1 s2, s1 ++ t = s2 ++ t -> s1 = s2.
Proof.
  induction s1 as [|a s1 IH]; intros [|b s2] H.
  - reflexivity.
  - apply (f_equal String.length) in H. simpl in H.
    rewrite append_length in H. lia.
  - apply (f_equal String.length) in H. simpl in H.
    rewrite append_length in H. lia.
  - simpl in H. injection H as -> H. f_equal. now apply IH.
Qed.

(** X16: the file is uploaded to the path the remote session reads,
    [input_ds], exactly when the remote user is "user1", the name written
    into the local cell. *)
Theorem upload_matches_input_iff user :
  upload_target = input_ds user <-> user = "user1".
Proof.
  split.
  - unfold upload_target, input_ds, local_hdfs_dataset_dir,
      remote_hdfs_dataset_dir.
    intros H. simpl in H. injection H as H.
    rewrite append_assoc in H.
    symmetry. apply (append_inv_tail "/datasets/cars.csv").
    simpl. exact H.
  - intros ->. reflexivity.
Qed.

End PathFacts.

(** ** Flat sweeps and broadcast scores *)

Section FlatFacts.

Local Open Scope float_scope.
Import FloatOrder Rounding.

(** The difference of a finite number with itself is a zero. *)
Lemma sub_self_zero e :
  ffin e = true -> unsign (Prim2SF (e - e)) = S754_zero false.
Proof.
  intros F. rewrite sub_spec.
  rewrite SFsub_val by (auto using Prim2SF_valid).
  now rewrite Z.sub_diag.
Qed.

Lemma div_zero_l z d :
  unsign (Prim2SF z) = S754_zero false ->
  is_nan d = false -> (d =? 0) = false ->
  unsign (Prim2SF (z / d)) = S754_zero false.
Proof.
  rewrite is_nan_spec, FloatAxioms.eqb_spec, div_spec.
  change (Prim2SF 0) with (S754_zero false).
  destruct (Prim2SF z) as [[]|[]| |[] ? ?], (Prim2SF d) as [[]|[]| |[] ? ?];
    try discriminate; reflexivity.
Qed.

Lemma mul_zero_r p s :
  ffin p = true -> unsign (Prim2SF s) = S754_zero false ->
  unsign (Prim2SF (p * s)) = S754_zero false.
Proof.
  unfold ffin. rewrite mul_spec.
  destruct (Prim2SF p) as [[]|[]| |[] ? ?], (Prim2SF s) as [[]|[]| |[] ? ?];
    try discriminate; reflexivity.
Qed.

Lemma sub_zero_r e z :
  ffin e = true -> unsign (Prim2SF z) = S754_zero false ->
  unsign (Prim2SF (e - z)) = unsign (Prim2SF e).
Proof.
  unfold ffin. rewrite sub_spec.
  destruct (Prim2SF e) as [[]|[]| |[] ? ?], (Prim2SF z) as [[]|[]| |[] ? ?];
    try discriminate; reflexivity.
Qed.

Lemma add_zero_l z c :
  unsign (Prim2SF z) = S754_zero false -> ffin c = true ->
  unsign (Prim2SF (z + c)) = unsign (Prim2SF c).
Proof.
  unfold ffin. rewrite add_spec.
  destruct (Prim2SF z) as [[]|[]| |[] ? ?], (Prim2SF c) as [[]|[]| |[] ? ?];
    try discriminate; reflexivity.
Qed.

Lemma unsign_fin x y :
  unsign (Prim2SF x) = unsign (Prim2SF y) -> ffin y = true ->
  ffin x = true /\ fval x = fval y.
Proof.
  unfold ffin, fval.
  destruct (Prim2SF x) as [[]|[]| |[] ? ?], (Prim2SF y) as [[]|[]| |[] ? ?];
    try discriminate; intros H _; try (split; reflexivity);
    injection H as -> ->; split; reflexivity.
Qed.

(** With a zero slope the line is flat: every point whose error is the
    common error [e] has distance zero. *)
Lemma flat_distance e p1 p s :
  ffin e = true -> ffin p1 = true -> ffin p = true ->
  unsign (Prim2SF s) = S754_zero false ->
  (p * s + (e - s * p1) - e =? 0) = true.
Proof.
  intros Fe F1 Fp Hs.
  assert (H1 : unsign (Prim2SF (s * p1)) = S754_zero false)
    by (rewrite mul_comm; now apply mul_zero_r).
  pose proof (sub_zero_r e _ Fe H1) as Hc.
  destruct (unsign_fin _ _ Hc Fe) as [Fc Vc].
  pose proof (add_zero_l _ _ (mul_zero_r p s Fp Hs) Fc) as Hl.
  destruct (unsign_fin _ _ Hl Fc) as [Fl Vl].
  apply sub_zero; auto. congruence.
Qed.

(** A NaN slope makes every distance a NaN. *)
Lemma nan_distance e p1 p s :
  is_nan s = true -> is_nan (p * s + (e - s * p1) - e) = true.
Proof.
  rewrite !is_nan_spec, !sub_spec, add_spec, sub_spec, !mul_spec.
  destruct (Prim2SF s) as [[]|[]| |[] ? ?]; try discriminate. intros _.
  destruct (Prim2SF p) as [[]|[]| |[] ? ?]; reflexivity.
Qed.

(** The slope of a flat sweep is a zero or a NaN. *)
Lemma flat_slope e d :
  ffin e = true -> is_nan d = false ->
  unsign (Prim2SF ((e - e) / d)) = S754_zero false \/
  is_nan ((e - e) / d) = true.
Proof.
  intros Fe Hd. destruct (d =? 0) eqn:E.
  - right. pose proof (sub_self_zero e Fe) as Hz.
    revert E Hz. rewrite is_nan_spec, FloatAxioms.eqb_spec, div_spec.
    change (Prim2SF 0) with (S754_zero false).
    destruct (Prim2SF (e - e)) as [[]|[]| |[] ? ?],
      (Prim2SF d) as [[]|[]| |[] ? ?]; try discriminate; reflexivity.
  - left. apply div_zero_l; auto. now apply sub_self_zero.
Qed.

Lemma float_of_int_not_nan z : is_nan (float_of_int z) = false.
Proof.
  rewrite is_nan_spec, Prim2SF_float_of_int.
  pose proof (rnd_int_not_nan (-1074) (z * 2 ^ 1074) ltac:(lia)) as H.
  destruct (rnd_int _ _); try reflexivity. congruence.
Qed.

(** An array that starts with a NaN, or whose elements all equal zero, has
    its first maximum at index 0. *)
Lemma argmax_head d0 rest :
  is_nan d0 = true \/ (forall x, In x (d0 :: rest) -> (x =? 0) = true) ->
  np.argmax (d0 :: rest) = Ok 0%nat.
Proof.
  intros H. destruct (is_nan d0) eqn:N; [simpl; now rewrite N|].
  destruct H as [H|H]; [discriminate|].
  destruct (argmax_nonempty (d0 :: rest) ltac:(discriminate)) as [k Hk].
  destruct (argmax_first_max _ _ Hk) as [dk Hfm].
  rewrite Hk. f_equal.
  apply (first_max_head _ _ _ d0 Hfm eq_refl).
  intros i di Hi.
  apply (all_equal_bounded (d0 :: rest) 0) with (i := i) (j := 0%nat);
    [|exact Hi | reflexivity].
  intros i' x Hx. apply H. eapply nth_error_In; eassumption.
Qed.

Lemma sub_self_nan e d : ffin e = false -> is_nan ((e - e) / d) = true.
Proof.
  unfold ffin. rewrite is_nan_spec, div_spec, sub_spec.
  destruct (Prim2SF e) as [[]|[]| |[] ? ?]; try discriminate; reflexivity.
Qed.

(** The distances when all the errors are [e]: all zero, or the first one
    a NaN. *)
Lemma flat_distances e d p1 ps :
  is_nan d = false ->
  (ffin e = true -> ffin p1 = true) ->
  (ffin e = true -> forall p, In p ps -> ffin p = true) ->
  let s := (e - e) / d in
  forall p0 rest, ps = p0 :: rest ->
  is_nan (p0 * s + (e - s * p1) - e) = true \/
  forall x, In x (map (fun p => p * s + (e - s * p1) - e) ps) -> (x =? 0) = true.
Proof.
  intros Hd F1 Fps s p0 rest ->.
  destruct (ffin e) eqn:Fe.
  - destruct (flat_slope e d Fe Hd) as [Hs|Hs].
    + right. intros x Hx. apply in_map_iff in Hx. destruct Hx as (p & <- & Hp).
      apply flat_distance; auto.
    + left. now apply nan_distance.
  - left. apply nan_distance. now apply sub_self_nan.
Qed.

Lemma float_of_int_nonzero z : z <> 0%Z -> (float_of_int z =? 0) = false.
Proof.
  intros Hz. destruct (float_of_int z =? 0) eqn:E; [|reflexivity].
  destruct (eqb_leb _ _ E) as [Hle Hge].
  destruct (Z_lt_le_dec z 0) as [Hneg|Hpos].
  - pose proof (float_of_int_mono z (-1) ltac:(lia)) as H.
    pose proof (leb_trans _ _ _ Hge H) as F. vm_compute in F. discriminate.
  - pose proof (float_of_int_mono 1 z ltac:(lia)) as H.
    pose proof (leb_trans _ _ _ H Hle) as F. vm_compute in F. discriminate.
Qed.

Lemma zero_eqb x : unsign (Prim2SF x) = S754_zero false -> (x =? 0) = true.
Proof.
  rewrite FloatAxioms.eqb_spec. change (Prim2SF 0) with (S754_zero false).
  destruct (Prim2SF x) as [[]|[]| |[] ? ?]; try discriminate; reflexivity.
Qed.

(** X17: on a valid sweep whose errors are all the same and whose
    parameter values fit in 64 bits, the line is flat: the slope is zero,
    every distance is zero, and the selector returns the first parameter
    value. *)
Theorem flat_sweep_selects_first ns es e :
  valid_sweep ns es = true -> np.is_numeric ns = true ->
  (forall x, In x es -> x = e) ->
  (chord_slope ns es =? 0) = true /\
  (forall d, In d (distances ns es) -> (d =? 0) = true) /\
  selector ns es = Ok (hd 0%Z ns).
Proof.
  intros Hv Hnum Hflat.
  destruct (valid_sweep_shape _ _ Hv) as [Hn Hlen].
  destruct (valid_sweep_parts _ _ Hv) as (_ & _ & Hrange & _ & Hall).
  destruct ns as [|p0 ns']; [congruence|].
  destruct es as [|e0 es']; [discriminate|].
  assert (He0 : e0 = e) by (apply Hflat; now left). subst e0.
  assert (Hlast : last (e :: es') 0 = e).
  { apply Hflat.
    pose proof (nth_error_last (e :: es') 0 ltac:(discriminate)) as H.
    eapply nth_error_In; eassumption. }
  assert (Fe : ffin e = true).
  { apply is_finite_ffin. eapply all_finite_nth with (j := 0%nat); [eassumption|].
    reflexivity. }
  set (d := float_of_int (last (p0 :: ns') 0%Z - p0)).
  assert (Hd0 : (d =? 0) = false).
  { apply float_of_int_nonzero. cbn [hd] in Hrange. lia. }
  assert (Hs : unsign (Prim2SF ((e - e) / d)) = S754_zero false).
  { apply div_zero_l; [now apply sub_self_zero | apply float_of_int_not_nan
                      | exact Hd0]. }
  assert (Hslope : chord_slope (p0 :: ns') (e :: es') = (e - e) / d).
  { unfold chord_slope. rewrite Hlast. reflexivity. }
  assert (Hdist : forall p ej, In p (p0 :: ns') -> In ej (e :: es') ->
            below_line (p0 :: ns') (e :: es') p ej
            = float_of_int p * ((e - e) / d)
              + (e - (e - e) / d * float_of_int p0) - e).
  { intros p ej Hp Hej. rewrite (Hflat ej Hej).
    unfold below_line, line_at, chord_intercept. rewrite Hslope. cbn [hd].
    now rewrite (mul_comm ((e - e) / d) (float_of_int p)). }
  assert (Hzero : forall x, In x (distances (p0 :: ns') (e :: es')) ->
                            (x =? 0) = true).
  { intros x Hx. unfold distances in Hx.
    apply in_map_iff in Hx. destruct Hx as ([p ej] & <- & Hpe).
    cbn [fst snd].
    rewrite Hdist by (eauto using in_combine_l, in_combine_r).
    apply flat_distance; auto; apply (numeric_finite (p0 :: ns')); auto;
      [now left | eauto using in_combine_l]. }
  split; [rewrite Hslope; now apply zero_eqb|]. split; [exact Hzero|].
  rewrite selector_select, (select_argmax _ _ Hnum Hn Hlen).
  assert (Hd : exists d0 rest, distances (p0 :: ns') (e :: es') = d0 :: rest)
    by (unfold distances; cbn [combine map]; eauto).
  destruct Hd as (d0 & rest & Hd). rewrite Hd in *.
  rewrite argmax_head; [reflexivity | right; exact Hzero].
Qed.

Lemma flat_sweep_selects_first_witness :
  (chord_slope [1; 2; 3]%Z [0.5; 0.5; 0.5] =? 0) = true /\
  (forall d, In d (distances [1; 2; 3]%Z [0.5; 0.5; 0.5]) ->
             (d =? 0) = true) /\
  selector [1; 2; 3]%Z [0.5; 0.5; 0.5] = Ok (hd 0%Z [1; 2; 3]%Z).
Proof.
  apply (flat_sweep_selects_first [1; 2; 3]%Z [0.5; 0.5; 0.5] 0.5).
  - reflexivity.
  - reflexivity.
  - intros x [<-|[<-|[<-|[]]]]; reflexivity.
Defined.

Lemma np_sub_scalar a e : np.sub a [e] = Ok (map (fun x => x - e) a).
Proof.
  unfold np.sub. destruct (Nat.eqb _ _) eqn:E.
  - apply Nat.eqb_eq in E. destruct a as [|x [|x' l]]; try discriminate.
    reflexivity.
  - destruct a as [|x [|x' l]]; reflexivity.
Qed.

(** X18: with a single score in [val_mad], as after a sweep interrupted in
    its second round, and parameter values that fit in 64 bits, the elbow
    cell raises nothing and selects the first parameter value, whatever
    the score is. *)
Theorem single_score_selects_first st e :
  val_mad st = [e] -> n_est st <> [] -> np.is_numeric (n_est st) = true ->
  exists st', elbow_cell st = (st', Ok (hd 0%Z (n_est st))).
Proof.
  intros Hv Hn Hnum.
  assert (He : val_mad st <> []) by (rewrite Hv; discriminate).
  destruct (n_est st) as [|p0 ns'] eqn:Hns; [congruence|].
  set (ns := p0 :: ns') in *.
  set (d := float_of_int (last ns 0%Z - p0)).
  set (s := (e - e) / d).
  assert (Hs : chord_slope ns (val_mad st) = s) by (rewrite Hv; reflexivity).
  assert (Hc : chord_intercept ns (val_mad st) = e - s * float_of_int p0)
    by (unfold chord_intercept; rewrite Hs, Hv; reflexivity).
  assert (Hd : dist_expr ns (val_mad st) s (e - s * float_of_int p0)
               = Ok (map (fun P => P * s + (e - s * float_of_int p0) - e)
                       (map float_of_int ns))).
  { unfold dist_expr. rewrite Hv, np_sub_scalar.
    unfold line_expr, np.add_scalar, np.mul_scalar.
    now rewrite !map_map. }
  assert (Hk : np.argmax (map (fun P => P * s + (e - s * float_of_int p0) - e)
                            (map float_of_int ns)) = Ok 0%nat).
  { unfold ns. cbn [map]. apply argmax_head.
    refine (flat_distances e d (float_of_int p0) (map float_of_int ns)
              (float_of_int_not_nan _) _ _
              (float_of_int p0) (map float_of_int ns') eq_refl).
    - intros _. apply (numeric_finite ns); [assumption | now left].
    - intros _ P HP. apply in_map_iff in HP. destruct HP as (p & <- & Hp).
      now apply (numeric_finite ns). }
  eexists. rewrite <- Hns.
  replace (hd 0%Z (n_est st)) with p0 by (rewrite Hns; reflexivity).
  apply (cell_run st s (e - s * float_of_int p0) 0%nat p0).
  - rewrite <- Hs, Hns.
    apply slope_expr_chord; [assumption | discriminate | assumption].
  - rewrite <- Hc, <- Hs, Hns.
    apply intercept_expr_chord; [assumption | discriminate | assumption].
  - rewrite Hns. fold ns. rewrite (best_n_expr_numeric _ _ _ _ Hnum), Hd.
    exact Hk.
  - rewrite Hns. reflexivity.
Qed.

Lemma single_score_selects_first_witness :
  exists st', elbow_cell (fresh [1; 2; 3]%Z [5])
              = (st', Ok (hd 0%Z [1; 2; 3]%Z)).
Proof.
  apply (single_score_selects_first (fresh [1; 2; 3]%Z [5]) 5).
  - reflexivity.
  - discriminate.
  - reflexivity.
Defined.

End FlatFacts.
